(** * Scrollback reducer and legacy-widget form adapter

    A shallow embedding of two pieces of the editor:

    - [useScrollback] of the sidebar block editor, the reducer that turns a
      stream of [scrollTop] samples into the bounded scrollback value;
    - [Form] of the legacy widget block, the effect that mounts a widget
      control and the two sets of instances it uses to tell its own changes
      from external ones, together with its [onError] handler.

    Pixel offsets are whole numbers, modelled in [Z]; the only non-integer
    number the code mentions is the default bound [Infinity], which has a
    constructor of its own.  JavaScript computes on binary64 numbers, on
    which whole numbers below [2^53] are added, subtracted and compared
    exactly; what fractional scroll positions (scaled displays) change is
    shown on the binary64 transcription in [ScrollbackFloat]. *)

From stdpp Require Import base decidable list gmap strings.
From Stdlib Require Import ZArith Lia.
From Stdlib Require PrimFloat.

Local Open Scope Z_scope.

(** ** The scrollback reducer *)

Module Scrollback.

(** The [max] parameter of [useScrollback]: a number, [Infinity] by default. *)
Inductive Bound : Type :=
| Finite (m : Z)
| Infinity.

(** [Math.min( max, x )] for a finite [x]. *)
Definition Math_min (max : Bound) (x : Z) : Z :=
  match max with
  | Finite m => Z.min m x
  | Infinity => x
  end.

(** [Math.max( 0, x )]. *)
Definition Math_max0 (x : Z) : Z := Z.max 0 x.

(** [x <= max] and [0 <= max] for a bound. *)
Definition le_bound (x : Z) (max : Bound) : Prop :=
  match max with
  | Finite m => x <= m
  | Infinity => True
  end.

Definition within (max : Bound) (x : Z) : Prop := 0 <= x /\ le_bound x max.

(** The two cells the reducer works on: the reducer state of [useReducer]
    and the ref [lastScrollTop]. *)
Record State : Type := mkState {
  scrollback : Z;
  lastScrollTop : Z;
}.

(** The arithmetic of the reducer body, once [scrollDiff] is known. *)
Definition next_scrollback (max : Bound) (scrollback scrollDiff : Z) : Z :=
  if scrollDiff <? 0 then Math_min max (scrollback - scrollDiff)
  else if 0 <? scrollback then Math_max0 (scrollback - scrollDiff)
  else scrollback.

(** The reducer: reads and overwrites [lastScrollTop.current], returns the
    new scrollback. *)
Definition reducer (max : Bound) (st : State) (scrollTop : Z) : State :=
  let scrollDiff := scrollTop - lastScrollTop st in
  {| scrollback := next_scrollback max (scrollback st) scrollDiff;
     lastScrollTop := scrollTop |}.

(** One step seen as a function of the previous accumulator, the previous
    offset and the new offset. *)
Definition reducer_step (max : Bound) (acc prev new : Z) : Z :=
  scrollback (reducer max {| scrollback := acc; lastScrollTop := prev |} new).

(** [useReducer( reducer, 0 )] with [useRef( element.scrollTop )]. *)
Definition init (scrollTop0 : Z) : State :=
  {| scrollback := 0; lastScrollTop := scrollTop0 |}.

(** The states after each sample of a stream, oldest first. *)
Fixpoint run (max : Bound) (st : State) (samples : list Z) : list State :=
  match samples with
  | [] => []
  | scrollTop :: rest =>
      let st' := reducer max st scrollTop in
      st' :: run max st' rest
  end.

(** The values [useScrollback] returns after each sample. *)
Definition useScrollback (max : Bound) (scrollTop0 : Z) (samples : list Z)
  : list Z :=
  scrollback <$> run max (init scrollTop0) samples.

(** The rule as the specification words it: with [delta] the new offset
    minus the previous one, a negative [delta] increases the accumulator by
    [-delta], clamped at [max]; otherwise the accumulator decreases by
    [delta], clamped at [0]. *)
Definition spec_step (max : Bound) (acc prev new : Z) : Z :=
  let delta := new - prev in
  if delta <? 0 then Math_min max (acc + - delta)
  else Z.max 0 (acc - delta).

(** The rule of the specification, iterated over a stream of samples. *)
Fixpoint spec_run (max : Bound) (acc prev : Z) (samples : list Z) : list Z :=
  match samples with
  | [] => []
  | new :: rest =>
      let acc' := spec_step max acc prev new in
      acc' :: spec_run max acc' new rest
  end.

End Scrollback.

(** ** The scrollback reducer on binary64 numbers

    The same reducer, on the numbers JavaScript computes with; [max] is a
    number too, [infinity] by default. *)

Module ScrollbackFloat.

Import PrimFloat.

(** [Math.min( a, b )]: [NaN] when an argument is, and [-0] below [+0]. *)
Definition Math_min (a b : float) : float :=
  if orb (is_nan a) (is_nan b) then nan
  else if ltb a b then a
  else if ltb b a then b
  else if get_sign a then a else b.

(** [Math.max( a, b )]: [NaN] when an argument is, and [+0] above [-0]. *)
Definition Math_max (a b : float) : float :=
  if orb (is_nan a) (is_nan b) then nan
  else if ltb a b then b
  else if ltb b a then a
  else if get_sign a then b else a.

Record State : Type := mkState {
  scrollback : float;
  lastScrollTop : float;
}.

Definition reducer (max : float) (st : State) (scrollTop : float) : State :=
  let scrollDiff := sub scrollTop (lastScrollTop st) in
  {| scrollback :=
       if ltb scrollDiff zero then
         Math_min max (sub (scrollback st) scrollDiff)
       else if ltb zero (scrollback st) then
         Math_max zero (sub (scrollback st) scrollDiff)
       else scrollback st;
     lastScrollTop := scrollTop |}.

Definition init (scrollTop0 : float) : State :=
  {| scrollback := zero; lastScrollTop := scrollTop0 |}.

Fixpoint run (max : float) (st : State) (samples : list float) : list State :=
  match samples with
  | [] => []
  | scrollTop :: rest =>
      let st' := reducer max st scrollTop in
      st' :: run max st' rest
  end.

Definition useScrollback (max scrollTop0 : float) (samples : list float)
  : list float :=
  map scrollback (run max (init scrollTop0) samples).

(** The binary64 numbers nearest to 0.1, 0.2 and 0.4 pixels. *)
Definition px_0_1 : float := 0x1.999999999999ap-4%float.
Definition px_0_2 : float := 0x1.999999999999ap-3%float.
Definition px_0_4 : float := 0x1.999999999999ap-2%float.

End ScrollbackFloat.

(** ** JavaScript values, as far as the error handler looks at them *)

Module JS.

(** A value handed to [onError]: anything can be thrown or passed.  An
    object lists the properties a lookup finds on it, own or inherited. *)
#[warnings="-register-all"]
Inductive Value : Type :=
| Undefined
| Null
| Boolean (b : bool)
| Number (n : Z)
| String (s : string)
| Object (props : list (string * Value)).

(** [props[ key ]] on the property list of an object. *)
Fixpoint lookup_prop (key : string) (props : list (string * Value)) : Value :=
  match props with
  | [] => Undefined
  | (k, v) :: rest => if String.eqb k key then v else lookup_prop key rest
  end.

(** [v.key] for a [v] that is neither [null] nor [undefined]; booleans,
    numbers and strings have no [message] property. *)
Definition get (v : Value) (key : string) : Value :=
  match v with
  | Object props => lookup_prop key props
  | _ => Undefined
  end.

Definition is_nullish (v : Value) : bool :=
  match v with
  | Undefined | Null => true
  | _ => false
  end.

(** [v?.key] *)
Definition optional_get (v : Value) (key : string) : Value :=
  if is_nullish v then Undefined else get v key.

(** [a ?? b] *)
Definition nullish_coalesce (a b : Value) : Value :=
  if is_nullish a then b else a.

End JS.

(** ** The legacy widget form *)

Module Form.

(** An instance is an object; [Set.prototype.has] and the dependency array
    compare objects by identity, so an instance is modelled by the identity
    of its object. *)
Abbreviation Instance := nat (only parsing).

(** A function value passed as a prop, by identity. *)
Abbreviation Callback := nat (only parsing).

(** The dependency array of the effect:
    [[ id, idBase, instance, onChangeInstance, onChangeHasPreview, isWide ]]. *)
Record Deps : Type := mkDeps {
  id : string;
  idBase : string;
  instance : Instance;
  onChangeInstance : Callback;
  onChangeHasPreview : Callback;
  isWide : bool;
}.

#[global] Instance Deps_eq_dec : EqDecision Deps.
Proof. solve_decision. Defined.

(** The object [new Control( { ... } )] returns: its identity and the
    values its option object closes over. *)
Record Control : Type := mkControl {
  ctl_key : nat;
  ctl_id : string;
  ctl_idBase : string;
  ctl_instance : Instance;
  ctl_onChangeInstance : Callback;
  ctl_onChangeHasPreview : Callback;
}.

#[global] Instance Control_eq_dec : EqDecision Control.
Proof. solve_decision. Defined.

(** What the form does to the outside: the calls it makes on the control
    class, the container node, its props and the notices store. *)
Inductive Event : Type :=
| NewControl (control : Control)
| AppendChild (control : Control)
| Destroy (control : Control)
| OnChangeInstance (callback : Callback) (nextInstance : Instance)
| CreateNotice (status : string) (content : JS.Value).

(** The function an effect run returns: it closes over [instance] and
    [control]. *)
Record Cleanup : Type := mkCleanup {
  cl_instance : Instance;
  cl_control : Control;
}.

(** The two refs of the component, the bookkeeping of [useEffect] (the
    dependencies of the last run and the cleanup it returned), the supply
    of object identities and the trace of events so far. *)
Record State : Type := mkState {
  outgoingInstances : gset nat;
  incomingInstances : gset nat;
  cleanup : option Cleanup;
  deps : option Deps;
  next_key : nat;
  log : list Event;
}.

Definition init : State :=
  {| outgoingInstances := ∅; incomingInstances := ∅; cleanup := None;
     deps := None; next_key := O; log := [] |}.

(** The function returned by the effect (lines 75 to 82). *)
Definition run_cleanup_fn (f : Cleanup) (s : State) : State :=
  if decide (cl_instance f ∈ outgoingInstances s) then
    {| outgoingInstances := outgoingInstances s ∖ {[ cl_instance f ]};
       incomingInstances := incomingInstances s;
       cleanup := cleanup s; deps := deps s; next_key := next_key s;
       log := log s |}
  else
    {| outgoingInstances := outgoingInstances s;
       incomingInstances := incomingInstances s;
       cleanup := cleanup s; deps := deps s; next_key := next_key s;
       log := log s ++ [Destroy (cl_control f)] |}.

(** The cleanup phase of [useEffect]: the function the last run returned,
    when it returned one. *)
Definition run_cleanup (s : State) : State :=
  match cleanup s with
  | Some f => run_cleanup_fn f s
  | None => s
  end.

(** The body of the effect (lines 46 to 83), run with the props [d]; what
    it returns becomes the registered cleanup. *)
Definition effect (d : Deps) (s : State) : State :=
  if decide (instance d ∈ incomingInstances s) then
    {| outgoingInstances := outgoingInstances s;
       incomingInstances := incomingInstances s ∖ {[ instance d ]};
       cleanup := None; deps := Some d; next_key := next_key s;
       log := log s |}
  else
    let control :=
      {| ctl_key := next_key s; ctl_id := id d; ctl_idBase := idBase d;
         ctl_instance := instance d;
         ctl_onChangeInstance := onChangeInstance d;
         ctl_onChangeHasPreview := onChangeHasPreview d |} in
    {| outgoingInstances := outgoingInstances s;
       incomingInstances := incomingInstances s;
       cleanup := Some {| cl_instance := instance d; cl_control := control |};
       deps := Some d; next_key := S (next_key s);
       log := log s ++ [NewControl control; AppendChild control] |}.

(** A render of [Form] followed by its effects: the first render runs the
    effect; a later one runs the previous cleanup and the effect when a
    dependency changed, and nothing otherwise. *)
Definition render (d : Deps) (s : State) : State :=
  match deps s with
  | None => effect d s
  | Some d0 => if decide (d = d0) then s else effect d (run_cleanup s)
  end.

(** The component is removed: the last cleanup runs, and the two sets go
    with the component; a later mount starts from two new sets (lines 41
    and 42). *)
Definition unmount (s : State) : State :=
  let s' := run_cleanup s in
  {| outgoingInstances := ∅;
     incomingInstances := ∅;
     cleanup := None; deps := None; next_key := next_key s';
     log := log s' |}.

(** The [onChangeInstance] option given to [control] (lines 56 to 60),
    called by the control with [nextInstance]. *)
Definition control_onChangeInstance (control : Control) (nextInstance : Instance)
    (s : State) : State :=
  {| outgoingInstances := {[ ctl_instance control ]} ∪ outgoingInstances s;
     incomingInstances := {[ nextInstance ]} ∪ incomingInstances s;
     cleanup := cleanup s; deps := deps s; next_key := next_key s;
     log := log s ++ [OnChangeInstance (ctl_onChangeInstance control) nextInstance] |}.

Definition fallback_message : string :=
  "An error occured while fetching or updating the widget.".

Section Translated.

(** [__] of the i18n package: the translation of a source text in the
    current locale. *)
Variable i18n : string → string.

(** The second argument of [createNotice] in [onError]:
    [error?.message ?? __( '...' )]. *)
Definition notice_content (error : JS.Value) : JS.Value :=
  JS.nullish_coalesce (JS.optional_get error "message")
                      (JS.String (i18n fallback_message)).

(** The [onError] option given to the control (lines 62 to 70). *)
Definition control_onError (error : JS.Value) (s : State) : State :=
  {| outgoingInstances := outgoingInstances s;
     incomingInstances := incomingInstances s;
     cleanup := cleanup s; deps := deps s; next_key := next_key s;
     log := log s ++ [CreateNotice "error" (notice_content error)] |}.

(** What can happen to a form. *)
Inductive Action : Type :=
| Render (d : Deps)
| ControlChange (control : Control) (nextInstance : Instance)
| ControlError (error : JS.Value)
| Unmount.

Definition step (s : State) (a : Action) : State :=
  match a with
  | Render d => render d s
  | ControlChange control nextInstance =>
      control_onChangeInstance control nextInstance s
  | ControlError error => control_onError error s
  | Unmount => unmount s
  end.

Definition run (actions : list Action) (s : State) : State :=
  foldl step s actions.

End Translated.

(** The events an action sequence adds to the trace of [s]. *)
Definition destroyed (control : Control) (s : State) : Prop :=
  Destroy control ∈ log s.

Definition constructed (control : Control) (s : State) : Prop :=
  NewControl control ∈ log s.

(** The control the first effect run builds for the props [d]. *)
Definition first_control (d : Deps) : Control :=
  {| ctl_key := O; ctl_id := id d; ctl_idBase := idBase d;
     ctl_instance := instance d;
     ctl_onChangeInstance := onChangeInstance d;
     ctl_onChangeHasPreview := onChangeHasPreview d |}.

(** [control] is the control the last effect run built, for the instance
    [A], and its cleanup is the registered one. *)
Definition mounted (A : Instance) (control : Control) (s : State) : Prop :=
  cleanup s = Some {| cl_instance := A; cl_control := control |} ∧
  ctl_instance control = A ∧
  is_Some (deps s).

(** The message an error carries: the [message] property of an object,
    when it is neither [undefined] nor [null]. *)
Definition message_of (error : JS.Value) : option JS.Value :=
  match error with
  | JS.Object props =>
      match JS.lookup_prop "message" props with
      | JS.Undefined | JS.Null => None
      | m => Some m
      end
  | _ => None
  end.

(** The props of a text widget whose instance is [i]; the props used in the
    examples. *)
Definition text_widget (i : Instance) : Deps :=
  {| id := "text-2"; idBase := "text"; instance := i;
     onChangeInstance := 11%nat; onChangeHasPreview := 12%nat;
     isWide := false |}.

End Form.

(** ** The sidebar block editor: sticky positions and editor settings *)

Module Sidebar.

(** What the doc comment of [useScrollback] promises: after each sample,
    the number of pixels between the greatest scroll position reached so
    far and the current one. *)
Fixpoint scrolled_up_from_greatest (greatest : Z) (samples : list Z) : list Z :=
  match samples with
  | [] => []
  | scrollTop :: rest =>
      let greatest' := Z.max greatest scrollTop in
      (greatest' - scrollTop) :: scrolled_up_from_greatest greatest' rest
  end.

(** The reducer of [headerHeight]: [( height, { offsetHeight } ) => offsetHeight]. *)
Definition updateHeaderHeight (height offsetHeight : Z) : Z := offsetHeight.

(** What makes [SidebarBlockEditor] render again: a scroll event of the
    scrolling context (the [onScroll] dispatch), the header node reaching
    [headerRef] (the [updateHeaderHeight] dispatch), or anything else. *)
Inductive Update : Type :=
| Scroll (scrollTop : Z)
| HeaderRef (offsetHeight : Z)
| Rerender.

(** The state of the component and what its last render left: the reducer
    state and the ref of [useScrollback], [headerHeight], the [stickyTop]
    given to the header, the sticky top given to the block toolbars, the
    number in [sectionMeta.style.top] (in [px]), and the [scrollback] the
    layout effect last ran with. *)
Record Editor : Type := mkEditor {
  scroll : Scrollback.State;
  headerHeight : Z;
  stickyTop : Z;
  blockToolbarOffset : Z;
  style_top : Z;
  layout_dep : Z;
}.

(** The first render, with the section meta [sectionMetaHeight] high: the
    layout effect runs. *)
Definition mount (sectionMetaHeight scrollTop0 : Z) : Editor :=
  let scrollback := 0 in
  {| scroll := Scrollback.init scrollTop0;
     headerHeight := 0;
     stickyTop := scrollback;
     blockToolbarOffset := scrollback + 0;
     style_top := - sectionMetaHeight + scrollback;
     layout_dep := scrollback |}.

(** A later render, which reads [sectionMeta.offsetHeight] again (lines 145
    to 158): the two props are computed anew, [style.top] is written only
    when [scrollback] differs from the one of the last layout effect run. *)
Definition render (sectionMetaHeight : Z) (e : Editor) : Editor :=
  let scrollback := Scrollback.scrollback (scroll e) in
  let blockToolbarOffset := scrollback + headerHeight e in
  if scrollback =? layout_dep e then
    {| scroll := scroll e; headerHeight := headerHeight e;
       stickyTop := scrollback; blockToolbarOffset := blockToolbarOffset;
       style_top := style_top e; layout_dep := layout_dep e |}
  else
    {| scroll := scroll e; headerHeight := headerHeight e;
       stickyTop := scrollback; blockToolbarOffset := blockToolbarOffset;
       style_top := - sectionMetaHeight + scrollback;
       layout_dep := scrollback |}.

(** An update followed by its render; [max] is the bound the memoised
    reducer has kept from the first render, and [sectionMetaHeight] what the
    render reads. *)
Definition update (max : Scrollback.Bound) (e : Editor)
    (u : Update * Z) : Editor :=
  let sectionMetaHeight := snd u in
  match fst u with
  | Scroll scrollTop =>
      render sectionMetaHeight
        {| scroll := Scrollback.reducer max (scroll e) scrollTop;
           headerHeight := headerHeight e;
           stickyTop := stickyTop e; blockToolbarOffset := blockToolbarOffset e;
           style_top := style_top e; layout_dep := layout_dep e |}
  | HeaderRef offsetHeight =>
      render sectionMetaHeight
        {| scroll := scroll e;
           headerHeight := updateHeaderHeight (headerHeight e) offsetHeight;
           stickyTop := stickyTop e; blockToolbarOffset := blockToolbarOffset e;
           style_top := style_top e; layout_dep := layout_dep e |}
  | Rerender => render sectionMetaHeight e
  end.

(** The component after the first render and after each update, when the
    section meta is [h0] high at the first render. *)
Fixpoint editor_run (max : Scrollback.Bound) (e : Editor)
    (updates : list (Update * Z)) : list Editor :=
  match updates with
  | [] => []
  | u :: rest => let e' := update max e u in e' :: editor_run max e' rest
  end.

Definition SidebarBlockEditor (h0 scrollTop0 : Z) (updates : list (Update * Z))
  : list Editor :=
  mount h0 scrollTop0
  :: editor_run (Scrollback.Finite h0) (mount h0 scrollTop0) updates.

(** A value the host hands in (an entry of [blockEditorSettings], an
    argument of a media upload): data, or a function known by identity. *)
Inductive HostValue : Type :=
| Data (v : JS.Value)
| Function (f : nat).

Definition undefined : HostValue := Data JS.Undefined.

(** [o[ key ]] on an object of host values. *)
Definition property (o : gmap string HostValue) (key : string) : HostValue :=
  default undefined (o !! key).

(** An entry of the object passed to [uploadMedia]. *)
Inductive UploadArg : Type :=
| Passed (v : HostValue)
| OnErrorWrapper (onError : HostValue).

(** [mediaUploadBlockEditor] (lines 119 to 125), as the object it calls
    [uploadMedia] with: [onError] is taken out of the argument, the other
    entries are spread last. *)
Definition mediaUploadBlockEditor (blockEditorSettings args : gmap string HostValue)
  : gmap string UploadArg :=
  let onError := property args "onError" in
  let argumentsObject := delete "onError" args in
  (Passed <$> argumentsObject) ∪
  <["onError" := OnErrorWrapper onError]>
    (<["wpAllowedMimeTypes" :=
         Passed (property blockEditorSettings "allowedMimeTypes")]> ∅).

(** An entry of the settings object. *)
Inductive SettingValue : Type :=
| FromHost (v : HostValue)
| MediaUploadBlockEditor (blockEditorSettings : gmap string HostValue).

(** The [settings] memo (lines 116 to 140). *)
Definition settings (blockEditorSettings : gmap string HostValue)
    (hasUploadPermissions : bool)
    (setIsInserterOpened isFixedToolbarActive keepCaretInsideBlock : HostValue)
  : gmap string SettingValue :=
  let mediaUploadBlockEditor :=
    if hasUploadPermissions then MediaUploadBlockEditor blockEditorSettings
    else FromHost undefined in
  <["keepCaretInsideBlock" := FromHost keepCaretInsideBlock]>
    (<["hasFixedToolbar" := FromHost isFixedToolbarActive]>
       (<["mediaUpload" := mediaUploadBlockEditor]>
          (<["__experimentalSetIsInserterOpened" := FromHost setIsInserterOpened]>
             (FromHost <$> blockEditorSettings)))).

(** The keys the memo writes itself. *)
Definition own_keys : list string :=
  ["__experimentalSetIsInserterOpened"; "mediaUpload"; "hasFixedToolbar";
   "keepCaretInsideBlock"].

End Sidebar.

(** ** Traces of the legacy widget form *)

Module FormTrace.

Import Form.

(** The controls a trace builds, and the ones it destroys, in order. *)
Definition constructed_controls (l : list Event) : list Control :=
  omap (λ e, match e with NewControl c => Some c | _ => None end) l.

Definition appended_controls (l : list Event) : list Control :=
  omap (λ e, match e with AppendChild c => Some c | _ => None end) l.

Definition destroyed_controls (l : list Event) : list Control :=
  omap (λ e, match e with Destroy c => Some c | _ => None end) l.

(** The notices a trace creates. *)
Definition notices (l : list Event) : list (string * JS.Value) :=
  omap (λ e, match e with CreateNotice st c => Some (st, c) | _ => None end) l.

(** The errors a sequence of actions reports. *)
Definition errors (actions : list Action) : list JS.Value :=
  omap (λ a, match a with ControlError e => Some e | _ => None end) actions.

(** The action leaves the component mounted. *)
Definition not_unmount (a : Action) : bool :=
  match a with
  | Unmount => false
  | _ => true
  end.

(** The action is not a change made by a control. *)
Definition not_own_change (a : Action) : bool :=
  match a with
  | ControlChange _ _ => false
  | _ => true
  end.

(** What the form keeps true of its trace: object identities are handed
    out in order, [destroy] is called on built controls only and once at
    most, the registered cleanup belongs to a built control that is still
    there, and the controls appended are the controls built. *)
Record trace_ok (s : State) : Prop := mk_trace_ok {
  keys_below : ∀ c, c ∈ constructed_controls (log s) → (ctl_key c < next_key s)%nat;
  destroyed_built : ∀ c, c ∈ destroyed_controls (log s) →
                         c ∈ constructed_controls (log s);
  destroyed_once : NoDup (destroyed_controls (log s));
  cleanup_live : ∀ f, cleanup s = Some f →
                      cl_control f ∈ constructed_controls (log s) ∧
                      cl_control f ∉ destroyed_controls (log s);
  appended_built : appended_controls (log s) = constructed_controls (log s);
}.

(** No change of a control is waiting to come back as props, and every
    control built so far is destroyed or is the one the registered cleanup
    will destroy. *)
Definition none_pending (s : State) : Prop :=
  outgoingInstances s = ∅ ∧ incomingInstances s = ∅ ∧
  (deps s = None → cleanup s = None) ∧
  ∀ c, c ∈ constructed_controls (log s) →
       c ∈ destroyed_controls (log s) ∨
       ∃ f, cleanup s = Some f ∧ cl_control f = c.

(** All the props of [Form]: the dependencies of the effect, and the three
    props the effect does not depend on. *)
Record Props : Type := mkProps {
  title : JS.Value;
  isVisible : bool;
  onClose : Callback;
  effect_deps : Deps;
}.

(** A render of [Form] with the props [p]. *)
Definition render_props (p : Props) (s : State) : State :=
  render (effect_deps p) s.

End FormTrace.

(** ** What [Form] renders *)

Module FormView.

Import Form FormTrace.

(** The ref objects of the two components, and the ones hooks return. *)
#[warnings="-register-all"]
Inductive Ref : Type :=
| BodyRef
| ContainerRef
| HookRef (n : nat)
| MergedRefs (refs : list Ref).

(** A value of a JSX attribute. *)
Inductive PropValue : Type :=
| PString (s : string)
| PBool (b : bool)
| PFunction (f : Callback)
| PRef (r : Ref)
| PIcon (name : string)
| PClassNames (base : string) (conditional : list (string * bool))
| PValue (v : JS.Value).

(** A node of the rendered tree; [Slot] is a node a hook returned. *)
#[warnings="-register-all"]
Inductive VNode : Type :=
| Element (type : string) (props : gmap string PropValue) (children : list VNode)
| Fragment (children : list VNode)
| Child (v : JS.Value)
| Slot (n : nat).

(** What [useDialog] and [useBudgeTopBy] return in [WideFormDialog]. *)
Record Hooks : Type := mkHooks {
  dialogRef : nat;
  dialogProps : gmap string PropValue;
  budgeRef : nat;
  resizeObserver : nat;
}.

Section Rendered.

Variable i18n : string → string.

(** [formCore] (lines 85 to 104). *)
Definition formCore (p : Props) : VNode :=
  Fragment [
    Element "header"
      {[ "className" := PString "wp-block-legacy-widget__edit-form-header" ]}
      [ Element "h3"
          {[ "className" := PString "wp-block-legacy-widget__edit-form-title" ]}
          [ Child (title p) ];
        if isWide (effect_deps p) then
          Element "Button"
            (<["onClick" := PFunction (onClose p)]>
               (<["label" := PString (i18n "Close dialog")]>
                  {[ "icon" := PIcon "closeSmall" ]}))
            []
        else Child (JS.Boolean false) ];
    Element "div"
      (<["ref" := PRef BodyRef]>
         {[ "className" := PString "wp-block-legacy-widget__edit-form-body" ]})
      [] ].

(** [WideFormDialog] (lines 124 to 151): the attributes of the inner [div]
    are written in the order [className], [ref], the spread of
    [dialogProps], [hidden]. *)
Definition WideFormDialog (h : Hooks) (isVisible : bool) (children : VNode)
  : VNode :=
  Element "div"
    (<["className" := PClassNames "wp-block-legacy-widget__container"
                        [("is-visible", isVisible)]]>
       {[ "ref" := PRef ContainerRef ]})
    [ Element "Fill" {[ "name" := PString "Popover" ]}
        [ Element "div"
            (<["hidden" := PBool (negb isVisible)]>
               (dialogProps h ∪
                <["ref" := PRef (MergedRefs [HookRef (dialogRef h);
                                             HookRef (budgeRef h)])]>
                  {[ "className" :=
                       PString "wp-block-legacy-widget__edit-form is-wide" ]}))
            [ Slot (resizeObserver h); children ] ] ].

(** What [Form] returns (lines 106 to 121). *)
Definition Form (p : Props) (h : Hooks) : VNode :=
  if isWide (effect_deps p) then
    WideFormDialog h (isVisible p) (formCore p)
  else
    Element "div"
      (<["hidden" := PBool (negb (isVisible p))]>
         {[ "className" := PString "wp-block-legacy-widget__edit-form" ]})
      [ formCore p ].

End Rendered.

(** The elements of a tree, parents first, with their attributes. *)
Fixpoint elements (v : VNode) : list (string * gmap string PropValue) :=
  match v with
  | Element type props children =>
      (type, props) :: concat (map elements children)
  | Fragment children => concat (map elements children)
  | Child _ => []
  | Slot _ => []
  end.

(** The values the elements of a tree give to the attribute [key]. *)
Definition attribute_values (key : string) (v : VNode) : list PropValue :=
  omap (λ e, snd e !! key) (elements v).

(** The attributes of the elements of type [type]. *)
Definition elements_of_type (type : string) (v : VNode)
  : list (gmap string PropValue) :=
  omap (λ e, if String.eqb (fst e) type then Some (snd e) else None)
       (elements v).

End FormView.

(** * Properties of the scrollback reducer *)

Section ScrollbackProperties.

Import Scrollback.

Implicit Types (max : Bound) (st : State) (acc scrollTop : Z).

Lemma Math_min_le_bound max x : le_bound (Math_min max x) max.
Proof. destruct max as [m|]; simpl; [lia | exact I]. Qed.

Lemma Math_min_id max x : le_bound x max → Math_min max x = x.
Proof. destruct max as [m|]; simpl; [lia | reflexivity]. Qed.

Lemma Math_min_lower max x lo :
  le_bound lo max → lo <= x → lo <= Math_min max x.
Proof. destruct max as [m|]; simpl; lia. Qed.

Lemma le_bound_trans x y max : x <= y → le_bound y max → le_bound x max.
Proof. destruct max as [m|]; simpl; [lia | trivial]. Qed.

(** One reducer step keeps the accumulator in range. *)
Lemma next_scrollback_within max acc scrollDiff :
  within max acc → within max (next_scrollback max acc scrollDiff).
Proof.
  intros [Hlo Hhi]. unfold next_scrollback, Math_max0.
  destruct (Z.ltb_spec scrollDiff 0) as [Hup | Hdown].
  - split; [| apply Math_min_le_bound].
    apply Math_min_lower; [| lia].
    now apply le_bound_trans with acc.
  - destruct (Z.ltb_spec 0 acc) as [Hpos | Hzero].
    + split; [lia |]. apply le_bound_trans with acc; [lia | assumption].
    + split; assumption.
Qed.

Lemma run_within max st samples :
  within max (scrollback st) →
  Forall (λ st', within max (scrollback st')) (run max st samples).
Proof.
  revert st. induction samples as [| scrollTop rest IH]; intros st Hst; simpl.
  - constructor.
  - assert (Hnext : within max (scrollback (reducer max st scrollTop)))
      by (simpl; now apply next_scrollback_within).
    constructor; [exact Hnext | now apply IH].
Qed.

(** C1: for every stream of scroll samples, from the initial accumulator [0]
    and with a bound [max >= 0], the value returned after each sample lies
    in [[0, max]]. *)
Theorem useScrollback_within max scrollTop0 samples :
  le_bound 0 max →
  Forall (within max) (useScrollback max scrollTop0 samples).
Proof.
  intros Hmax. unfold useScrollback. rewrite Forall_fmap.
  apply (run_within max (init scrollTop0) samples).
  split; [simpl; lia | exact Hmax].
Qed.

Lemma useScrollback_within_witness :
  le_bound 0 (Finite 46) ∧
  Forall (within (Finite 46))
         (useScrollback (Finite 46) 120 [100; 30; 60; 400; 0]).
Proof.
  split; [simpl; lia |].
  apply (useScrollback_within (Finite 46) 120 [100; 30; 60; 400; 0]).
  simpl; lia.
Defined.

(** Only on a negative accumulator that is scrolled downward do the reducer
    and the rule of the specification part: the guard [scrollback > 0]
    leaves it alone.  The hook never holds one when [max >= 0]. *)
Lemma reducer_step_negative_acc max acc prev new :
  acc < 0 → prev <= new →
  reducer_step max acc prev new = acc ∧ spec_step max acc prev new = 0.
Proof.
  intros Hneg Hdown. unfold reducer_step, spec_step, reducer, next_scrollback.
  cbn [scrollback lastScrollTop].
  destruct (Z.ltb_spec (new - prev) 0); [lia |].
  destruct (Z.ltb_spec 0 acc); [lia |]. split; [reflexivity | lia].
Qed.

(** One step is the rule of the specification on every accumulator that is
    not negative, and on every accumulator when the sample is upward. *)
Lemma reducer_step_spec_on max acc prev new :
  0 <= acc ∨ new - prev < 0 →
  reducer_step max acc prev new = spec_step max acc prev new.
Proof.
  intros Hdom. unfold reducer_step, spec_step, reducer, next_scrollback, Math_max0.
  cbn [scrollback lastScrollTop].
  destruct (Z.ltb_spec (new - prev) 0) as [Hup | Hdown].
  - reflexivity.
  - destruct (Z.ltb_spec 0 acc); [reflexivity | lia].
Qed.

(** Over a whole stream, from the accumulator [0] and with [max >= 0], the
    hook returns what the rule of the specification returns. *)
Lemma useScrollback_spec_run max scrollTop0 samples :
  le_bound 0 max →
  useScrollback max scrollTop0 samples = spec_run max 0 scrollTop0 samples.
Proof.
  intros Hmax. unfold useScrollback.
  assert (Hgen : ∀ st, within max (scrollback st) →
            scrollback <$> run max st samples =
            spec_run max (scrollback st) (lastScrollTop st) samples).
  { induction samples as [| x rest IH]; intros st Hst; [reflexivity |].
    cbn [run spec_run fmap list_fmap].
    assert (Hstep : scrollback (reducer max st x) =
                    spec_step max (scrollback st) (lastScrollTop st) x).
    { rewrite <- reducer_step_spec_on by (left; apply Hst).
      unfold reducer_step. now destruct st. }
    rewrite <- Hstep. f_equal.
    apply (IH (reducer max st x)). cbn [reducer scrollback].
    now apply next_scrollback_within. }
  apply (Hgen (init scrollTop0)). split; [cbn; lia | exact Hmax].
Qed.

(** C2: for every accumulator value of the hook (it is never negative),
    every previous offset and every new offset, one step of the reducer is
    the rule of the specification: with [delta] the new offset minus the
    previous one, a negative [delta] adds [-delta] and clamps at [max],
    another [delta] subtracts it and clamps at [0]. *)
Theorem reducer_step_spec max acc prev new :
  0 <= acc →
  reducer_step max acc prev new = spec_step max acc prev new.
Proof.
  intros Hacc. unfold reducer_step, spec_step, reducer, next_scrollback, Math_max0.
  cbn [scrollback lastScrollTop].
  destruct (Z.ltb_spec (new - prev) 0) as [Hup | Hdown].
  - reflexivity.
  - destruct (Z.ltb_spec 0 acc) as [Hpos | Hzero]; [reflexivity |].
    assert (acc = 0) as -> by lia. lia.
Qed.

Lemma reducer_step_spec_witness :
  0 <= 12 ∧
  reducer_step (Finite 46) 12 50 70 = spec_step (Finite 46) 12 50 70.
Proof.
  split; [lia |].
  apply (reducer_step_spec (Finite 46) 12 50 70). lia.
Defined.

(** C5 (amended): when the accumulator [s] in [[0, max]], the distance
    [d > 0] and the scroll position are whole numbers of pixels, an upward
    sample of [d] followed by a downward sample of [d] gives [s] back when
    [s + d <= max], that is when neither step clamps. *)
Theorem up_then_down_restores max s top d :
  within max s → 0 < d → le_bound (s + d) max →
  reducer max (reducer max {| scrollback := s; lastScrollTop := top |} (top - d)) top
  = {| scrollback := s; lastScrollTop := top |}.
Proof.
  intros [Hlo _] Hd Hroom. unfold reducer, next_scrollback, Math_max0.
  cbn [scrollback lastScrollTop].
  destruct (Z.ltb_spec (top - d - top) 0) as [_ | Hbad]; [| lia].
  replace (s - (top - d - top)) with (s + d) by lia.
  rewrite (Math_min_id max (s + d) Hroom).
  destruct (Z.ltb_spec (top - (top - d)) 0) as [Hbad | _]; [lia |].
  destruct (Z.ltb_spec 0 (s + d)) as [_ | Hbad]; [| lia].
  f_equal. lia.
Qed.

Lemma up_then_down_restores_witness :
  within (Finite 46) 10 ∧ 0 < 30 ∧ le_bound (10 + 30) (Finite 46) ∧
  reducer (Finite 46)
    (reducer (Finite 46) {| scrollback := 10; lastScrollTop := 200 |} (200 - 30))
    200
  = {| scrollback := 10; lastScrollTop := 200 |}.
Proof.
  assert (Hin : within (Finite 46) 10) by (split; simpl; lia).
  assert (Hd : 0 < 30) by lia.
  assert (Hroom : le_bound (10 + 30) (Finite 46)) by (simpl; lia).
  split; [exact Hin |]. split; [exact Hd |]. split; [exact Hroom |].
  exact (up_then_down_restores (Finite 46) 10 200 30 Hin Hd Hroom).
Defined.

(** C6: when the accumulator equals [max], an upward sample (a negative
    offset delta) leaves it at [max]. *)
Theorem at_max_stays_at_max max st scrollTop :
  max = Finite (scrollback st) →
  scrollTop - lastScrollTop st < 0 →
  Finite (scrollback (reducer max st scrollTop)) = max.
Proof.
  intros -> Hup. unfold reducer, next_scrollback. cbn [scrollback lastScrollTop].
  destruct (Z.ltb_spec (scrollTop - lastScrollTop st) 0) as [_ | Hbad]; [| lia].
  simpl. f_equal. lia.
Qed.

Lemma at_max_stays_at_max_witness :
  Finite 46 = Finite (scrollback {| scrollback := 46; lastScrollTop := 80 |}) ∧
  75 - lastScrollTop {| scrollback := 46; lastScrollTop := 80 |} < 0 ∧
  Finite (scrollback
            (reducer (Finite 46) {| scrollback := 46; lastScrollTop := 80 |} 75))
  = Finite 46.
Proof.
  split; [reflexivity |]. split; [simpl; lia |].
  apply (at_max_stays_at_max (Finite 46)
           {| scrollback := 46; lastScrollTop := 80 |} 75);
    [reflexivity | simpl; lia].
Defined.

End ScrollbackProperties.

(** * The reducer on fractional scroll positions *)

Section ScrollbackFloatProperties.

Import ScrollbackFloat PrimFloat.

(** C5, as stated, fails on fractional pixels: from the accumulator 0.1,
    with [max] 46, an upward sample of 0.2 (from 0.2 to 0) followed by a
    downward sample of 0.2 (back to 0.2) clamps nowhere and leaves
    0.10000000000000003, which is not 0.1. *)
Lemma up_then_down_rounds :
  let s := px_0_1 in
  let d := px_0_2 in
  let top := px_0_2 in
  let max := 46%float in
  leb zero s = true ∧ leb s max = true ∧ ltb zero d = true ∧
  leb (add s d) max = true ∧
  reducer max
    (reducer max {| scrollback := s; lastScrollTop := top |} (sub top d)) top
  = {| scrollback := 0x1.999999999999cp-4%float; lastScrollTop := top |} ∧
  eqb 0x1.999999999999cp-4%float s = false.
Proof. vm_compute. repeat split. Qed.

(** On fractional positions the roundings add up over a stream: the third
    value below is above the distance 0.4 - 0.2 from the greatest position
    to the current one. *)
Example fractional_positions_drift :
  useScrollback infinity px_0_4 [px_0_2; px_0_1; px_0_2] =
  [px_0_2; 0x1.3333333333334p-2%float; 0x1.999999999999bp-3%float] ∧
  ltb (sub px_0_4 px_0_2) 0x1.999999999999bp-3%float = true.
Proof. vm_compute. split; reflexivity. Qed.

End ScrollbackFloatProperties.

(** * Properties of the legacy widget form *)

Section FormProperties.

Import Form.

Implicit Types (s : State) (d : Deps) (control : Control).

(** ** The effect and its cleanup, case by case *)

Lemma effect_incoming d s :
  instance d ∈ incomingInstances s →
  effect d s =
  {| outgoingInstances := outgoingInstances s;
     incomingInstances := incomingInstances s ∖ {[ instance d ]};
     cleanup := None; deps := Some d; next_key := next_key s;
     log := log s |}.
Proof. intros Hin. unfold effect. now rewrite decide_True. Qed.

Lemma effect_external d s :
  instance d ∉ incomingInstances s →
  ∃ control,
    ctl_instance control = instance d ∧
    ctl_key control = next_key s ∧
    effect d s =
    {| outgoingInstances := outgoingInstances s;
       incomingInstances := incomingInstances s;
       cleanup := Some {| cl_instance := instance d; cl_control := control |};
       deps := Some d; next_key := S (next_key s);
       log := log s ++ [NewControl control; AppendChild control] |}.
Proof.
  intros Hout. unfold effect. rewrite decide_False by assumption.
  eexists. split; [| split]; [| | reflexivity]; reflexivity.
Qed.

Lemma run_cleanup_outgoing A control s :
  cleanup s = Some {| cl_instance := A; cl_control := control |} →
  A ∈ outgoingInstances s →
  run_cleanup s =
  {| outgoingInstances := outgoingInstances s ∖ {[ A ]};
     incomingInstances := incomingInstances s;
     cleanup := cleanup s; deps := deps s; next_key := next_key s;
     log := log s |}.
Proof.
  intros Hc Hin. unfold run_cleanup, run_cleanup_fn. rewrite Hc. simpl.
  now rewrite decide_True.
Qed.

Lemma run_cleanup_destroys A control s :
  cleanup s = Some {| cl_instance := A; cl_control := control |} →
  A ∉ outgoingInstances s →
  run_cleanup s =
  {| outgoingInstances := outgoingInstances s;
     incomingInstances := incomingInstances s;
     cleanup := cleanup s; deps := deps s; next_key := next_key s;
     log := log s ++ [Destroy control] |}.
Proof.
  intros Hc Hout. unfold run_cleanup, run_cleanup_fn. rewrite Hc. simpl.
  now rewrite decide_False.
Qed.

(** [set.add( x )] on an empty set, then [set.delete( x )]. *)
Lemma add_then_delete (x : nat) : ({[ x ]} ∪ ∅) ∖ {[ x ]} = (∅ : gset nat).
Proof.
  apply set_eq. intros y.
  rewrite elem_of_difference, elem_of_union, elem_of_singleton.
  split.
  - intros [[Heq | Hempty] Hne]; [contradiction |].
    now apply not_elem_of_empty in Hempty.
  - intros Hempty. now apply not_elem_of_empty in Hempty.
Qed.

Lemma run_cleanup_none s : cleanup s = None → run_cleanup s = s.
Proof. intros Hc. unfold run_cleanup. now rewrite Hc. Qed.

(** With no change of its own pending, a render with changed props whose
    instance is not an expected one destroys the control and builds the
    next. *)
Lemma external_change_remounts A control d d0 s :
  mounted A control s → deps s = Some d0 → d ≠ d0 →
  A ∉ outgoingInstances s → instance d ∉ incomingInstances s →
  ∃ control',
    ctl_instance control' = instance d ∧
    log (render d s) =
    log s ++ [Destroy control; NewControl control'; AppendChild control'].
Proof.
  intros (Hc & _ & _) Hd0 Hne Hout Hinc. unfold render. rewrite Hd0.
  rewrite decide_False by assumption.
  rewrite (run_cleanup_destroys A control s Hc Hout).
  match goal with |- context [effect d ?s1] =>
    destruct (effect_external d s1 Hinc) as (control' & Hi & _ & ->) end.
  exists control'. split; [exact Hi |]. cbn [log]. now rewrite <- app_assoc.
Qed.

(** The state once a change of the control from [A] to [B] has come back as
    props: both sets are empty again and no cleanup is registered. *)
Lemma reconciled_state dA dB :
  instance dA ≠ instance dB →
  let control := first_control dA in
  let s1 := render dB (control_onChangeInstance control (instance dB)
                         (render dA init)) in
  outgoingInstances s1 = ∅ ∧ incomingInstances s1 = ∅ ∧
  cleanup s1 = None ∧ deps s1 = Some dB ∧ next_key s1 = 1%nat ∧
  log s1 = [NewControl control; AppendChild control;
            OnChangeInstance (onChangeInstance dA) (instance dB)].
Proof.
  intros Hne control s1. subst s1.
  assert (Hmount : render dA init =
    {| outgoingInstances := ∅; incomingInstances := ∅;
       cleanup := Some {| cl_instance := instance dA; cl_control := control |};
       deps := Some dA; next_key := 1%nat;
       log := [NewControl control; AppendChild control] |}).
  { unfold render, effect. cbn [deps init incomingInstances].
    rewrite decide_False by apply not_elem_of_empty. reflexivity. }
  rewrite Hmount. unfold render. cbn [control_onChangeInstance deps].
  rewrite decide_False by congruence.
  erewrite run_cleanup_outgoing; [| reflexivity |].
  - rewrite effect_incoming.
    + unfold control_onChangeInstance, control, first_control.
      cbn [outgoingInstances incomingInstances cleanup deps next_key log
           ctl_instance ctl_onChangeInstance app].
      rewrite !add_then_delete. repeat split.
    + cbn [incomingInstances].
      apply elem_of_union_l, elem_of_singleton_2; reflexivity.
  - cbn [outgoingInstances].
    apply elem_of_union_l, elem_of_singleton_2; reflexivity.
Qed.

(** C3: a control mounted for [A] changes the instance to [B] through its
    [onChangeInstance]; when the props then deliver [B], the render adds no
    event but the call of the parent's callback: the control is not
    destroyed, and no control is built for [B]. *)
Theorem own_change_no_remount A control B d s :
  mounted A control s → instance d = B →
  let s' := render d (control_onChangeInstance control B s) in
  log s' = log s ++ [OnChangeInstance (ctl_onChangeInstance control) B] ∧
  next_key s' = next_key s.
Proof.
  intros (Hc & HA & [d0 Hd0]) HB. unfold render.
  cbn [control_onChangeInstance deps]. rewrite Hd0.
  destruct (decide (d = d0)) as [_ | _]; [split; reflexivity |].
  set (s1 := control_onChangeInstance control B s).
  assert (Hc1 : cleanup s1 = Some {| cl_instance := A; cl_control := control |})
    by exact Hc.
  assert (Hin1 : A ∈ outgoingInstances s1).
  { subst s1. cbn [control_onChangeInstance outgoingInstances].
    rewrite HA. apply elem_of_union_l, elem_of_singleton_2. reflexivity. }
  rewrite (run_cleanup_outgoing A control s1 Hc1 Hin1).
  rewrite effect_incoming.
  - split; reflexivity.
  - subst s1. cbn [incomingInstances control_onChangeInstance]. rewrite HB.
    apply elem_of_union_l, elem_of_singleton_2. reflexivity.
Qed.

Lemma own_change_no_remount_witness :
  let s := render (text_widget 0) init in
  let control := first_control (text_widget 0) in
  mounted 0 control s ∧ instance (text_widget 1) = 1%nat ∧
  log (render (text_widget 1) (control_onChangeInstance control 1 s)) =
    log s ++ [OnChangeInstance (ctl_onChangeInstance control) 1] ∧
  next_key (render (text_widget 1) (control_onChangeInstance control 1 s)) =
    next_key s.
Proof.
  intros s control.
  assert (Hm : mounted 0 control s).
  { split; [reflexivity |]. split; [reflexivity |]. eexists. reflexivity. }
  assert (HB : instance (text_widget 1) = 1%nat) by reflexivity.
  split; [exact Hm |]. split; [exact HB |].
  exact (own_change_no_remount 0%nat control 1%nat (text_widget 1) s Hm HB).
Defined.

Section UndoAfterOwnChange.

Variable i18n : string → string.

(** C4 at the input on which it fails: the control edits [A] into [B], the
    props deliver [B], then an undo delivers [A] again.  No cleanup is
    registered by then, so [destroy] is never called on the first control,
    while a second control is built and appended next to it. *)
Theorem undo_leaves_first_control :
  let A := 0%nat in
  let B := 1%nat in
  let first := first_control (text_widget A) in
  let second :=
    {| ctl_key := 1; ctl_id := "text-2"; ctl_idBase := "text";
       ctl_instance := A; ctl_onChangeInstance := 11;
       ctl_onChangeHasPreview := 12 |} in
  let s := run i18n [Render (text_widget A); ControlChange first B;
                     Render (text_widget B); Render (text_widget A)] init in
  log s = [NewControl first; AppendChild first; OnChangeInstance 11 B;
           NewControl second; AppendChild second] ∧
  ¬ destroyed first s.
Proof.
  intros A B first second s.
  assert (Hlog : log s = [NewControl first; AppendChild first;
                          OnChangeInstance 11 B;
                          NewControl second; AppendChild second])
    by (vm_compute; reflexivity).
  split; [exact Hlog |]. unfold destroyed. rewrite Hlog.
  intros Hin. repeat (apply elem_of_cons in Hin as [Hin | Hin]; [discriminate |]).
  now apply elem_of_nil in Hin.
Qed.

(** The same loss when the props deliver another value [C] while a change of
    the control to [B] is still pending: the cleanup takes the teardown for
    the echo of that change and skips [destroy]. *)
Example pending_change_leaves_first_control :
  let first := first_control (text_widget 0) in
  let s := run i18n [Render (text_widget 0); ControlChange first 1;
                     Render (text_widget 2)] init in
  ¬ destroyed first s ∧ (∃ second, ctl_instance second = 2%nat ∧
                                   ctl_key second = 1%nat ∧
                                   constructed second s).
Proof.
  intros first s. split.
  - unfold destroyed. vm_compute log.
    intros Hin.
    repeat (apply elem_of_cons in Hin as [Hin | Hin]; [discriminate |]).
    now apply elem_of_nil in Hin.
  - eexists {| ctl_key := 1; ctl_instance := 2 |}.
    split; [reflexivity |]. split; [reflexivity |].
    unfold constructed. vm_compute log.
    do 3 apply list_elem_of_further. apply list_elem_of_here.
Qed.

(** Without a change of the control in between, the props going from [A] to
    [C] destroy the control of [A] and mount one for [C]. *)
Example plain_external_change_remounts :
  let first := first_control (text_widget 0) in
  let second :=
    {| ctl_key := 1; ctl_id := "text-2"; ctl_idBase := "text";
       ctl_instance := 2; ctl_onChangeInstance := 11;
       ctl_onChangeHasPreview := 12 |} in
  log (run i18n [Render (text_widget 0); Render (text_widget 2)] init) =
  [NewControl first; AppendChild first; Destroy first;
   NewControl second; AppendChild second].
Proof. vm_compute. reflexivity. Qed.

End UndoAfterOwnChange.

(** C9: the suppression works once.  The effect run that reconciles the
    control's own change to [B] removes [B] from the incoming set; when the
    props move away (to [X]) and [B] arrives again, the control of [X] is
    destroyed and a control is built and appended for [B]; and when the
    effect runs again for [B] because another dependency changed, a control
    is built for [B] as well. *)
Theorem suppression_is_one_shot dA dB dX dB' :
  instance dA ≠ instance dB → instance dX ≠ instance dB →
  instance dB' = instance dB → dB' ≠ dB →
  let s1 := render dB (control_onChangeInstance (first_control dA) (instance dB)
                         (render dA init)) in
  (instance dB ∉ incomingInstances s1) ∧
  (∃ cX cB,
     ctl_instance cX = instance dX ∧ ctl_instance cB = instance dB ∧
     log (render dB (render dX s1)) =
     log s1 ++ [NewControl cX; AppendChild cX; Destroy cX;
                NewControl cB; AppendChild cB]) ∧
  (∃ cB',
     ctl_instance cB' = instance dB ∧
     log (render dB' s1) = log s1 ++ [NewControl cB'; AppendChild cB']).
Proof.
  intros HAB HXB HB' Hne' s1.
  destruct (reconciled_state dA dB HAB) as (Hout & Hinc & Hcl & Hdeps & _ & _).
  fold s1 in Hout, Hinc, Hcl, Hdeps.
  assert (Hfresh : ∀ i, i ∉ incomingInstances s1)
    by (intros i; rewrite Hinc; apply not_elem_of_empty).
  split; [apply Hfresh |]. split.
  - assert (HdX : dX ≠ dB) by congruence.
    destruct (effect_external dX s1 (Hfresh _)) as (cX & HcX & _ & HeX).
    assert (Hr1 : render dX s1 = effect dX s1).
    { unfold render. rewrite Hdeps, decide_False by assumption.
      now rewrite run_cleanup_none. }
    set (s2 := render dX s1) in *.
    assert (Hm2 : mounted (instance dX) cX s2).
    { rewrite Hr1, HeX. split; [reflexivity |].
      split; [exact HcX | eexists; reflexivity]. }
    assert (Hd2 : deps s2 = Some dX) by (rewrite Hr1, HeX; reflexivity).
    assert (Hout2 : instance dX ∉ outgoingInstances s2).
    { rewrite Hr1, HeX. cbn [outgoingInstances]. rewrite Hout.
      apply not_elem_of_empty. }
    assert (Hinc2 : instance dB ∉ incomingInstances s2).
    { rewrite Hr1, HeX. cbn [incomingInstances]. apply Hfresh. }
    assert (HdB : dB ≠ dX) by congruence.
    destruct (external_change_remounts (instance dX) cX dB dX s2
                Hm2 Hd2 HdB Hout2 Hinc2) as (cB & HcB & Hlog).
    exists cX, cB. split; [exact HcX |]. split; [exact HcB |].
    rewrite Hlog, Hr1, HeX. cbn [log]. rewrite <- app_assoc. reflexivity.
  - assert (Hinc' : instance dB' ∉ incomingInstances s1) by apply Hfresh.
    destruct (effect_external dB' s1 Hinc') as (cB' & HcB' & _ & He).
    exists cB'. split; [congruence |].
    unfold render. rewrite Hdeps, decide_False by assumption.
    rewrite run_cleanup_none by assumption. now rewrite He.
Qed.

Lemma suppression_is_one_shot_witness :
  let dB' :=
    {| id := "text-2"; idBase := "text"; instance := 1%nat;
       onChangeInstance := 21%nat; onChangeHasPreview := 12%nat;
       isWide := false |} in
  let s1 := render (text_widget 1)
              (control_onChangeInstance (first_control (text_widget 0)) 1
                 (render (text_widget 0) init)) in
  (1%nat ∉ incomingInstances s1) ∧
  (∃ cX cB,
     ctl_instance cX = 0%nat ∧ ctl_instance cB = 1%nat ∧
     log (render (text_widget 1) (render (text_widget 0) s1)) =
     log s1 ++ [NewControl cX; AppendChild cX; Destroy cX;
                NewControl cB; AppendChild cB]) ∧
  (∃ cB',
     ctl_instance cB' = 1%nat ∧
     log (render dB' s1) = log s1 ++ [NewControl cB'; AppendChild cB']).
Proof.
  intros dB' s1.
  apply (suppression_is_one_shot (text_widget 0) (text_widget 1)
           (text_widget 0) dB'); simpl; try discriminate; try reflexivity.
Defined.

End FormProperties.

(** * The error notice *)

Section NoticeProperties.

Import Form.

Variable i18n : string → string.

(** [error?.message ?? fallback] picks the message an error carries and the
    fallback when it carries none. *)
Lemma notice_content_message_of (error : JS.Value) :
  notice_content i18n error =
  match message_of error with
  | Some m => m
  | None => JS.String (i18n fallback_message)
  end.
Proof.
  unfold notice_content, JS.nullish_coalesce, JS.optional_get, message_of.
  destruct error as [ | | b | n | str | props]; try reflexivity.
  cbn [JS.is_nullish JS.get].
  destruct (JS.lookup_prop "message" props); reflexivity.
Qed.

(** C7: [onError] creates exactly one notice, of status [error]; its text
    is the message of the error when the error has one, and the translation
    of 'An error occured while fetching or updating the widget.' when it has
    none. *)
Theorem onError_creates_notice (error : JS.Value) (s : State) :
  log (control_onError i18n error s) =
  log s ++ [CreateNotice "error"
              match message_of error with
              | Some m => m
              | None =>
                  JS.String
                    (i18n "An error occured while fetching or updating the widget.")
              end].
Proof.
  unfold control_onError. cbn [log].
  now rewrite notice_content_message_of.
Qed.

(** C10: the fallback is used exactly when the error, or its message, is
    [null] or [undefined]; any other message is passed on as it is, and so
    is the empty string. *)
Theorem fallback_only_when_nullish (error : JS.Value)
    (rest : list (string * JS.Value)) :
  notice_content i18n error =
  (if JS.is_nullish error || JS.is_nullish (JS.get error "message")
   then JS.String (i18n fallback_message)
   else JS.get error "message") ∧
  notice_content i18n (JS.Object (("message", JS.String "") :: rest)) =
  JS.String "" ∧
  notice_content i18n (JS.Object (("message", JS.Null) :: rest)) =
  JS.String (i18n fallback_message) ∧
  notice_content i18n (JS.Object []) = JS.String (i18n fallback_message) ∧
  notice_content i18n JS.Undefined = JS.String (i18n fallback_message) ∧
  notice_content i18n JS.Null = JS.String (i18n fallback_message).
Proof.
  split; [| repeat split].
  unfold notice_content, JS.nullish_coalesce, JS.optional_get.
  destruct error as [ | | b | n | str | props]; try reflexivity.
Qed.

End NoticeProperties.

(** * More on the scrollback reducer *)

Section ScrollbackDistance.

Import Scrollback Sidebar.

Implicit Types (max : Bound) (st : State) (g acc scrollTop : Z).

(** While the accumulator is the distance to the greatest position and no
    value of the run exceeds [max], the run yields those distances. *)
Lemma run_distance max st g samples :
  lastScrollTop st <= g → scrollback st = g - lastScrollTop st →
  Forall (λ v, le_bound v max) (scrolled_up_from_greatest g samples) →
  scrollback <$> run max st samples = scrolled_up_from_greatest g samples.
Proof.
  revert st g. induction samples as [| x rest IH]; intros st g Hle Hacc Hfit.
  - reflexivity.
  - cbn [run scrolled_up_from_greatest fmap list_fmap] in *.
    apply Forall_cons in Hfit as [Hx Hrest].
    assert (Hstep : scrollback (reducer max st x) = Z.max g x - x).
    { unfold reducer, next_scrollback, Math_max0. cbn [scrollback].
      destruct (Z.ltb_spec (x - lastScrollTop st) 0) as [Hup | Hdown].
      - replace (Z.max g x) with g in * by lia.
        rewrite Math_min_id; [lia |].
        replace (scrollback st - (x - lastScrollTop st)) with (g - x) by lia.
        exact Hx.
      - destruct (Z.ltb_spec 0 (scrollback st)); lia. }
    f_equal; [exact Hstep |].
    apply IH; [cbn [reducer lastScrollTop]; lia | exact Hstep | exact Hrest].
Qed.

(** The accumulator never exceeds the distance to the greatest position. *)
Lemma run_below_distance max st g samples :
  lastScrollTop st <= g → scrollback st <= g - lastScrollTop st →
  Forall2 Z.le (scrollback <$> run max st samples)
               (scrolled_up_from_greatest g samples).
Proof.
  revert st g. induction samples as [| x rest IH]; intros st g Hle Hacc.
  - constructor.
  - cbn [run scrolled_up_from_greatest fmap list_fmap].
    assert (Hstep : scrollback (reducer max st x) <= Z.max g x - x).
    { unfold reducer, next_scrollback, Math_max0. cbn [scrollback].
      destruct (Z.ltb_spec (x - lastScrollTop st) 0) as [Hup | Hdown].
      - destruct max as [m |]; cbn [Math_min]; lia.
      - destruct (Z.ltb_spec 0 (scrollback st)); lia. }
    constructor; [exact Hstep |].
    apply IH; [cbn [reducer lastScrollTop]; lia | exact Hstep].
Qed.

(** X1: on whole-pixel scroll positions and with the default bound
    [Infinity], [useScrollback] returns, after each sample, the distance
    between the greatest scroll position reached so far (the initial one
    included) and the current one. *)
Theorem useScrollback_unbounded scrollTop0 samples :
  useScrollback Infinity scrollTop0 samples =
  scrolled_up_from_greatest scrollTop0 samples.
Proof.
  unfold useScrollback. apply run_distance.
  - cbn. lia.
  - cbn. lia.
  - apply Forall_forall. intros v _. exact I.
Qed.

(** X2: on whole-pixel scroll positions and whatever the bound, the value
    never exceeds the distance between the greatest scroll position reached
    so far and the current one. *)
Theorem useScrollback_below_distance max scrollTop0 samples :
  Forall2 Z.le (useScrollback max scrollTop0 samples)
               (scrolled_up_from_greatest scrollTop0 samples).
Proof.
  unfold useScrollback. apply run_below_distance; cbn; lia.
Qed.

(** X3: on whole-pixel scroll positions, as long as that distance stays
    within [max], the bound plays no part: the values are the distances
    themselves. *)
Theorem useScrollback_unclamped max scrollTop0 samples :
  Forall (λ v, le_bound v max) (scrolled_up_from_greatest scrollTop0 samples) →
  useScrollback max scrollTop0 samples =
  scrolled_up_from_greatest scrollTop0 samples.
Proof.
  intros Hfit. unfold useScrollback. apply run_distance; [cbn; lia .. | exact Hfit].
Qed.

Lemma useScrollback_unclamped_witness :
  Forall (λ v, le_bound v (Finite 46))
         (scrolled_up_from_greatest 100 [120; 90; 80; 130; 125]) ∧
  useScrollback (Finite 46) 100 [120; 90; 80; 130; 125] = [0; 30; 40; 0; 5].
Proof.
  assert (Hfit : Forall (λ v, le_bound v (Finite 46))
                   (scrolled_up_from_greatest 100 [120; 90; 80; 130; 125])).
  { cbn. repeat constructor; lia. }
  split; [exact Hfit |].
  exact (useScrollback_unclamped (Finite 46) 100 [120; 90; 80; 130; 125] Hfit).
Defined.

(** X4: one sample moves the accumulator against the scroll direction, and never
    by more than the scroll itself: an upward sample raises it by at most
    the distance scrolled, a downward one lowers it by at most that. *)
Theorem reducer_follows_scroll max st scrollTop :
  le_bound (scrollback st) max →
  let d := scrollTop - lastScrollTop st in
  let acc' := scrollback (reducer max st scrollTop) in
  (d < 0 → scrollback st <= acc' <= scrollback st - d) ∧
  (0 <= d → scrollback st - d <= acc' <= scrollback st).
Proof.
  intros Hmax d acc'. subst d acc'.
  unfold reducer, next_scrollback, Math_max0. cbn [scrollback].
  destruct (Z.ltb_spec (scrollTop - lastScrollTop st) 0) as [Hup | Hdown].
  - split; [intros _ | lia].
    destruct max as [m |]; cbn [Math_min le_bound] in *; lia.
  - split; [lia | intros _].
    destruct (Z.ltb_spec 0 (scrollback st)); lia.
Qed.

Lemma reducer_follows_scroll_witness :
  le_bound (scrollback {| scrollback := 40; lastScrollTop := 200 |}) (Finite 46) ∧
  40 <= scrollback (reducer (Finite 46)
                      {| scrollback := 40; lastScrollTop := 200 |} 180)
     <= 40 - (180 - 200).
Proof.
  assert (Hmax : le_bound (scrollback {| scrollback := 40; lastScrollTop := 200 |})
                          (Finite 46)) by (cbn; lia).
  split; [exact Hmax |].
  apply (reducer_follows_scroll (Finite 46)
           {| scrollback := 40; lastScrollTop := 200 |} 180 Hmax).
  cbn. lia.
Defined.

(** X5: a sample that repeats the previous scroll position changes nothing. *)
Theorem repeated_sample_is_noop max st scrollTop :
  reducer max (reducer max st scrollTop) scrollTop = reducer max st scrollTop.
Proof.
  unfold reducer, next_scrollback, Math_max0. cbn [scrollback lastScrollTop].
  f_equal. rewrite Z.sub_diag. cbn [Z.ltb Z.compare].
  match goal with |- context [0 <? ?a] => destruct (Z.ltb_spec 0 a) end; lia.
Qed.

(** X6: scrolling down by at least the accumulated amount brings the accumulator
    back to [0]. *)
Theorem scroll_down_past_resets max st scrollTop :
  0 <= scrollback st →
  scrollback st <= scrollTop - lastScrollTop st →
  scrollback (reducer max st scrollTop) = 0.
Proof.
  intros Hlo Hpast. unfold reducer, next_scrollback, Math_max0. cbn [scrollback].
  destruct (Z.ltb_spec (scrollTop - lastScrollTop st) 0); [lia |].
  destruct (Z.ltb_spec 0 (scrollback st)); lia.
Qed.

Lemma scroll_down_past_resets_witness :
  0 <= scrollback {| scrollback := 30; lastScrollTop := 200 |} ∧
  scrollback {| scrollback := 30; lastScrollTop := 200 |}
    <= 260 - lastScrollTop {| scrollback := 30; lastScrollTop := 200 |} ∧
  scrollback (reducer (Finite 46)
                {| scrollback := 30; lastScrollTop := 200 |} 260) = 0.
Proof.
  split; [cbn; lia |]. split; [cbn; lia |].
  apply (scroll_down_past_resets (Finite 46)
           {| scrollback := 30; lastScrollTop := 200 |} 260); cbn; lia.
Defined.

(** X7: scrolling up by at least what is missing to [max] brings the accumulator
    to [max]. *)
Theorem scroll_up_past_saturates m st scrollTop :
  scrollTop < lastScrollTop st →
  m - scrollback st <= lastScrollTop st - scrollTop →
  scrollback (reducer (Finite m) st scrollTop) = m.
Proof.
  intros Hup Hpast. unfold reducer, next_scrollback. cbn [scrollback Math_min].
  destruct (Z.ltb_spec (scrollTop - lastScrollTop st) 0); lia.
Qed.

Lemma scroll_up_past_saturates_witness :
  150 < lastScrollTop {| scrollback := 10; lastScrollTop := 200 |} ∧
  46 - scrollback {| scrollback := 10; lastScrollTop := 200 |}
    <= lastScrollTop {| scrollback := 10; lastScrollTop := 200 |} - 150 ∧
  scrollback (reducer (Finite 46)
                {| scrollback := 10; lastScrollTop := 200 |} 150) = 46.
Proof.
  split; [cbn; lia |]. split; [cbn; lia |].
  apply (scroll_up_past_saturates 46
           {| scrollback := 10; lastScrollTop := 200 |} 150); cbn; lia.
Defined.

Lemma run_shift max st c samples :
  scrollback <$> run max {| scrollback := scrollback st;
                            lastScrollTop := lastScrollTop st + c |}
                     ((λ x, x + c) <$> samples)
  = scrollback <$> run max st samples.
Proof.
  revert st. induction samples as [| x rest IH]; intros st; [reflexivity |].
  cbn [run fmap list_fmap].
  assert (Hstep : reducer max {| scrollback := scrollback st;
                                 lastScrollTop := lastScrollTop st + c |} (x + c)
                  = {| scrollback := scrollback (reducer max st x);
                       lastScrollTop := lastScrollTop (reducer max st x) + c |}).
  { unfold reducer. cbn [scrollback lastScrollTop].
    replace (x + c - (lastScrollTop st + c)) with (x - lastScrollTop st) by lia.
    reflexivity. }
  rewrite Hstep. f_equal. apply IH.
Qed.

(** X8: on whole-pixel scroll positions the values depend on the scroll
    distances only: shifting the initial position and every sample by the
    same whole number of pixels gives the same values. *)
Theorem useScrollback_shift max scrollTop0 c samples :
  useScrollback max (scrollTop0 + c) ((λ x, x + c) <$> samples) =
  useScrollback max scrollTop0 samples.
Proof.
  unfold useScrollback. exact (run_shift max (init scrollTop0) c samples).
Qed.

Lemma render_positions h0 e :
  0 <= h0 →
  within (Finite h0) (scrollback (scroll e)) →
  style_top e = - h0 + layout_dep e →
  let e' := render h0 e in
  scroll e' = scroll e ∧ headerHeight e' = headerHeight e ∧
  layout_dep e' = scrollback (scroll e) ∧
  style_top e' = - h0 + scrollback (scroll e) ∧
  stickyTop e' = scrollback (scroll e) ∧
  blockToolbarOffset e' = scrollback (scroll e) + headerHeight e.
Proof.
  intros Hh0 Hsb Htop e'. subst e'. unfold render.
  destruct (Z.eqb_spec (scrollback (scroll e)) (layout_dep e)) as [Heq | Hne];
    cbn [Sidebar.scroll headerHeight layout_dep style_top stickyTop
         blockToolbarOffset].
  - repeat split; [symmetry; exact Heq | rewrite Heq; exact Htop].
  - repeat split.
Qed.

Lemma editor_run_positions h0 e updates :
  0 <= h0 → Forall (λ u, snd u = h0) updates →
  within (Finite h0) (scrollback (scroll e)) →
  layout_dep e = scrollback (scroll e) →
  style_top e = - h0 + scrollback (scroll e) →
  Forall (λ e',
            let sb := scrollback (scroll e') in
            style_top e' = - h0 + sb ∧ - h0 <= style_top e' <= 0 ∧
            stickyTop e' = sb ∧ 0 <= stickyTop e' <= h0 ∧
            blockToolbarOffset e' = sb + headerHeight e')
         (editor_run (Finite h0) e updates).
Proof.
  intros Hh0 Hheights. revert e.
  induction Hheights as [| [u h] rest Hh _ IH]; intros e Hsb Hdep Htop;
    cbn [editor_run]; [constructor |].
  cbn [snd] in Hh. subst h.
  assert (Hnext : ∃ e0, update (Finite h0) e (u, h0) = render h0 e0 ∧
                        within (Finite h0) (scrollback (scroll e0)) ∧
                        style_top e0 = - h0 + layout_dep e0).
  { destruct u as [scrollTop | offsetHeight |]; cbn [update fst snd];
      eexists; (split; [reflexivity |]);
      cbn [Sidebar.scroll style_top layout_dep].
    - split; [| now rewrite Hdep].
      cbn [reducer scrollback]. now apply next_scrollback_within.
    - split; [exact Hsb | now rewrite Hdep].
    - split; [exact Hsb | now rewrite Hdep]. }
  destruct Hnext as (e0 & -> & Hsb0 & Htop0).
  destruct (render_positions h0 e0 Hh0 Hsb0 Htop0)
    as (Hscroll & Hheader & Hdep' & Htop' & Hsticky & Htoolbar).
  rewrite <- Hscroll in Hsb0, Hdep', Htop', Hsticky, Htoolbar.
  rewrite <- Hheader in Htoolbar.
  destruct Hsb0 as [Hlo Hhi]. cbn [le_bound] in Hhi.
  constructor.
  - cbn zeta. repeat split; try assumption; lia.
  - apply IH; [split; assumption | exact Hdep' | exact Htop'].
Qed.

(** X9: the header and the section meta stay on screen.  As long as the
    section meta keeps the height [h0 >= 0] it had at the first render, after
    the first render and after every scroll event, header measurement or
    other render, [sectionMeta.style.top] is [-h0 + scrollback] pixels, which
    lies between [-h0] and [0]; the header gets [scrollback], between [0] and
    [h0], as its [stickyTop], and the block toolbars [scrollback +
    headerHeight]. *)
Theorem sticky_positions_bounded h0 scrollTop0 updates :
  0 <= h0 → Forall (λ u, snd u = h0) updates →
  Forall (λ e,
            let sb := scrollback (scroll e) in
            style_top e = - h0 + sb ∧ - h0 <= style_top e <= 0 ∧
            stickyTop e = sb ∧ 0 <= stickyTop e <= h0 ∧
            blockToolbarOffset e = sb + headerHeight e)
         (SidebarBlockEditor h0 scrollTop0 updates).
Proof.
  intros Hh0 Hheights. unfold SidebarBlockEditor. constructor.
  - cbn. repeat split; lia.
  - apply editor_run_positions; try assumption; try reflexivity.
    split; cbn; lia.
Qed.

Lemma sticky_positions_bounded_witness :
  let updates := [(Scroll 100, 46); (HeaderRef 50, 46); (Scroll 30, 46);
                  (Rerender, 46); (Scroll 60, 46); (Scroll 400, 46);
                  (Scroll 0, 46)] in
  0 <= 46 ∧ Forall (λ u : Update * Z, snd u = 46) updates ∧
  Forall (λ e,
            let sb := scrollback (scroll e) in
            style_top e = - 46 + sb ∧ - 46 <= style_top e <= 0 ∧
            stickyTop e = sb ∧ 0 <= stickyTop e <= 46 ∧
            blockToolbarOffset e = sb + headerHeight e)
         (SidebarBlockEditor 46 120 updates).
Proof.
  intros updates.
  assert (Hh : Forall (λ u : Update * Z, snd u = 46) updates)
    by (repeat constructor).
  split; [lia |]. split; [exact Hh |].
  apply (sticky_positions_bounded 46 120 updates); [lia | exact Hh].
Defined.

End ScrollbackDistance.

(** * The settings of the sidebar block editor *)

Section SettingsProperties.

Import Sidebar.

Implicit Types (blockEditorSettings args : gmap string HostValue).

(** X10: the four entries the memo writes come from the memo whatever the host
    put under those keys; without the upload permission [mediaUpload] is
    [undefined] even when the host settings carry one. *)
Theorem settings_own_entries blockEditorSettings hasUploadPermissions
    setIsInserterOpened isFixedToolbarActive keepCaretInsideBlock :
  let s := settings blockEditorSettings hasUploadPermissions
             setIsInserterOpened isFixedToolbarActive keepCaretInsideBlock in
  s !! "__experimentalSetIsInserterOpened" = Some (FromHost setIsInserterOpened) ∧
  s !! "mediaUpload" =
    Some (if hasUploadPermissions then MediaUploadBlockEditor blockEditorSettings
          else FromHost undefined) ∧
  s !! "hasFixedToolbar" = Some (FromHost isFixedToolbarActive) ∧
  s !! "keepCaretInsideBlock" = Some (FromHost keepCaretInsideBlock).
Proof.
  intros s. subst s. unfold settings. repeat split.
  - do 3 (rewrite lookup_insert_ne by discriminate). apply lookup_insert_eq.
  - do 2 (rewrite lookup_insert_ne by discriminate). apply lookup_insert_eq.
  - rewrite lookup_insert_ne by discriminate. apply lookup_insert_eq.
  - apply lookup_insert_eq.
Qed.

(** X11: every other entry of the host settings is handed on unchanged, and no
    entry is invented. *)
Theorem settings_pass_through blockEditorSettings hasUploadPermissions
    setIsInserterOpened isFixedToolbarActive keepCaretInsideBlock key :
  key ∉ own_keys →
  settings blockEditorSettings hasUploadPermissions
    setIsInserterOpened isFixedToolbarActive keepCaretInsideBlock !! key
  = FromHost <$> blockEditorSettings !! key.
Proof.
  intros Hkey. unfold own_keys in Hkey.
  rewrite !not_elem_of_cons in Hkey.
  destruct Hkey as (H1 & H2 & H3 & H4 & _).
  unfold settings.
  rewrite !lookup_insert_ne by congruence.
  apply lookup_fmap.
Qed.

Lemma settings_pass_through_witness :
  ("allowedMimeTypes" ∉ own_keys) ∧
  settings {[ "allowedMimeTypes" := Data (JS.String "image/png") ]} false
    (Function 1) (Data (JS.Boolean true)) (Data (JS.Boolean false))
    !! "allowedMimeTypes"
  = Some (FromHost (Data (JS.String "image/png"))).
Proof.
  assert (Hkey : "allowedMimeTypes" ∉ own_keys).
  { unfold own_keys. rewrite !not_elem_of_cons.
    repeat split; try discriminate. apply not_elem_of_nil. }
  split; [exact Hkey |].
  rewrite (settings_pass_through
             {[ "allowedMimeTypes" := Data (JS.String "image/png") ]} false
             (Function 1) (Data (JS.Boolean true)) (Data (JS.Boolean false))
             "allowedMimeTypes" Hkey).
  reflexivity.
Defined.

(** X12: the object [mediaUploadBlockEditor] gives to [uploadMedia]: [onError] is
    always the wrapper around the caller's [onError]; every other entry of
    the caller's argument is passed as it is, [wpAllowedMimeTypes] included
    when the caller gives one; otherwise [wpAllowedMimeTypes] is the
    [allowedMimeTypes] of the host settings; there is nothing else. *)
Theorem uploadMedia_arguments blockEditorSettings args key :
  mediaUploadBlockEditor blockEditorSettings args !! key =
  if decide (key = "onError") then
    Some (OnErrorWrapper (property args "onError"))
  else
    match args !! key with
    | Some v => Some (Passed v)
    | None =>
        if decide (key = "wpAllowedMimeTypes") then
          Some (Passed (property blockEditorSettings "allowedMimeTypes"))
        else None
    end.
Proof.
  unfold mediaUploadBlockEditor.
  rewrite lookup_union, lookup_fmap.
  destruct (decide (key = "onError")) as [-> | Hne].
  - rewrite lookup_delete_eq, lookup_insert_eq. reflexivity.
  - rewrite lookup_delete_ne by congruence.
    rewrite lookup_insert_ne by congruence.
    destruct (args !! key) as [v |]; cbn.
    + destruct (<["wpAllowedMimeTypes" := _]> ∅ !! key); reflexivity.
    + destruct (decide (key = "wpAllowedMimeTypes")) as [-> | Hne'].
      * rewrite lookup_insert_eq. reflexivity.
      * rewrite lookup_insert_ne by congruence. rewrite lookup_empty. reflexivity.
Qed.

End SettingsProperties.

(** * Traces of the legacy widget form *)

Section FormTraceProperties.

Import Form FormTrace.

Variable i18n : string → string.

Implicit Types (s : State) (d : Deps) (control : Control) (l : list Event).

Ltac split_logs :=
  unfold constructed_controls, appended_controls, destroyed_controls, notices;
  rewrite ?omap_app; cbn [omap]; rewrite ?app_nil_r.

Lemma constructed_snoc_new l c :
  constructed_controls (l ++ [NewControl c; AppendChild c]) =
  constructed_controls l ++ [c].
Proof. split_logs. reflexivity. Qed.

Lemma appended_snoc_new l c :
  appended_controls (l ++ [NewControl c; AppendChild c]) =
  appended_controls l ++ [c].
Proof. split_logs. reflexivity. Qed.

Lemma destroyed_snoc_new l c :
  destroyed_controls (l ++ [NewControl c; AppendChild c]) = destroyed_controls l.
Proof. split_logs. reflexivity. Qed.

Lemma destroyed_snoc_destroy l c :
  destroyed_controls (l ++ [Destroy c]) = destroyed_controls l ++ [c].
Proof. split_logs. reflexivity. Qed.

Lemma constructed_snoc_destroy l c :
  constructed_controls (l ++ [Destroy c]) = constructed_controls l.
Proof. split_logs. reflexivity. Qed.

Lemma appended_snoc_destroy l c :
  appended_controls (l ++ [Destroy c]) = appended_controls l.
Proof. split_logs. reflexivity. Qed.

Lemma trace_ok_init : trace_ok init.
Proof.
  split; cbn.
  - intros c Hc. now apply elem_of_nil in Hc.
  - intros c Hc. now apply elem_of_nil in Hc.
  - constructor.
  - intros f Hf. discriminate Hf.
  - reflexivity.
Qed.

(** The effect re-establishes the invariant from what the cleanup leaves. *)
Lemma effect_ok d s :
  (∀ c, c ∈ constructed_controls (log s) → (ctl_key c < next_key s)%nat) →
  (∀ c, c ∈ destroyed_controls (log s) → c ∈ constructed_controls (log s)) →
  NoDup (destroyed_controls (log s)) →
  appended_controls (log s) = constructed_controls (log s) →
  trace_ok (effect d s).
Proof.
  intros Hkeys Hbuilt Honce Happ. unfold effect.
  destruct (decide (instance d ∈ incomingInstances s)) as [_ | _].
  - split; cbn [log next_key cleanup]; try assumption.
    intros f Hf. discriminate Hf.
  - split; cbn [log next_key cleanup].
    + intros c. rewrite constructed_snoc_new, elem_of_app, list_elem_of_singleton.
      intros [Hc | ->]; [apply Hkeys in Hc; lia | cbn; lia].
    + intros c. rewrite destroyed_snoc_new, constructed_snoc_new, elem_of_app.
      intros Hc. left. now apply Hbuilt.
    + now rewrite destroyed_snoc_new.
    + intros f [= <-]. cbn [cl_control].
      rewrite constructed_snoc_new, destroyed_snoc_new, elem_of_app,
        list_elem_of_singleton.
      split; [now right |].
      intros Hd. apply Hbuilt, Hkeys in Hd. cbn in Hd. lia.
    + rewrite constructed_snoc_new, appended_snoc_new. now f_equal.
Qed.

(** What the cleanup phase keeps: all of the invariant but the part on the
    registered cleanup, which the next effect run replaces. *)
Lemma run_cleanup_keeps s :
  trace_ok s →
  let s' := run_cleanup s in
  (∀ c, c ∈ constructed_controls (log s') → (ctl_key c < next_key s')%nat) ∧
  (∀ c, c ∈ destroyed_controls (log s') → c ∈ constructed_controls (log s')) ∧
  NoDup (destroyed_controls (log s')) ∧
  appended_controls (log s') = constructed_controls (log s').
Proof.
  intros [Hkeys Hbuilt Honce Hlive Happ] s'. subst s'. unfold run_cleanup.
  destruct (cleanup s) as [f |] eqn:Hf; [| by repeat split].
  unfold run_cleanup_fn.
  destruct (decide (cl_instance f ∈ outgoingInstances s)) as [_ | _];
    cbn [log next_key]; [by repeat split |].
  destruct (Hlive f eq_refl) as [Hin Hnot].
  rewrite constructed_snoc_destroy, destroyed_snoc_destroy, appended_snoc_destroy.
  repeat split; try assumption.
  - intros c. rewrite elem_of_app, list_elem_of_singleton.
    intros [Hc | ->]; [now apply Hbuilt | exact Hin].
  - apply NoDup_app. split; [exact Honce |]. split; [| apply NoDup_singleton].
    intros c Hc. rewrite list_elem_of_singleton. intros ->. contradiction.
Qed.

Lemma render_ok d s : trace_ok s → trace_ok (render d s).
Proof.
  intros Hs. unfold render. destruct (deps s) as [d0 |].
  - destruct (decide (d = d0)) as [_ | _]; [exact Hs |].
    destruct (run_cleanup_keeps s Hs) as (H1 & H2 & H3 & H4).
    now apply effect_ok.
  - destruct Hs as [Hkeys Hbuilt Honce _ Happ]. now apply effect_ok.
Qed.

Lemma unmount_ok s : trace_ok s → trace_ok (unmount s).
Proof.
  intros Hs. destruct (run_cleanup_keeps s Hs) as (H1 & H2 & H3 & H4).
  unfold unmount. split; cbn [log next_key cleanup]; try assumption.
  intros f Hf. discriminate Hf.
Qed.

Lemma step_ok s a : trace_ok s → trace_ok (step i18n s a).
Proof.
  intros Hs. destruct a as [d | control nextInstance | error |]; cbn [step].
  - now apply render_ok.
  - destruct Hs as [Hkeys Hbuilt Honce Hlive Happ].
    split; unfold control_onChangeInstance; cbn [log next_key cleanup];
      split_logs; assumption.
  - destruct Hs as [Hkeys Hbuilt Honce Hlive Happ].
    split; unfold control_onError; cbn [log next_key cleanup];
      split_logs; assumption.
  - now apply unmount_ok.
Qed.

Lemma run_ok actions s : trace_ok s → trace_ok (run i18n actions s).
Proof.
  revert s. induction actions as [| a rest IH]; intros s Hs; [exact Hs |].
  cbn [run foldl]. apply IH. now apply step_ok.
Qed.

(** X13: while a form is mounted, whatever happens to it (renders, changes
    and errors of its controls, in any order), and also when it is unmounted
    at the end, it calls [destroy] only on controls it has built, never
    twice on the same control, and it appends each control it builds, and
    nothing else, to the container. *)
Theorem destroy_only_built_once actions s :
  forallb not_unmount actions = true →
  s = run i18n actions init ∨ s = unmount (run i18n actions init) →
  NoDup (destroyed_controls (log s)) ∧
  (∀ c, c ∈ destroyed_controls (log s) → c ∈ constructed_controls (log s)) ∧
  appended_controls (log s) = constructed_controls (log s).
Proof.
  intros _ Hs.
  pose proof (run_ok actions init trace_ok_init) as Hrun.
  assert (Hok : trace_ok s)
    by (destruct Hs as [-> | ->]; [exact Hrun | now apply unmount_ok]).
  destruct Hok as [_ Hbuilt Honce _ Happ].
  split; [exact Honce |]. split; [exact Hbuilt | exact Happ].
Qed.

Lemma deps_render d s : deps (render d s) = Some d.
Proof.
  unfold render. destruct (deps s) as [d0 |] eqn:Hd.
  - destruct (decide (d = d0)) as [-> | _]; [exact Hd |].
    unfold effect. now destruct (decide _).
  - unfold effect. now destruct (decide _).
Qed.

Lemma render_same_deps d s : render d (render d s) = render d s.
Proof.
  unfold render at 1. rewrite deps_render. now rewrite decide_True.
Qed.

(** X15: a render whose props differ from the previous ones in [title],
    [isVisible] or [onClose] only runs neither the cleanup nor the effect:
    the control, the two sets and the trace stay as they are. *)
Theorem rerender_outside_deps p q s :
  effect_deps q = effect_deps p →
  render_props q (render_props p s) = render_props p s.
Proof.
  intros Hsame. unfold render_props. rewrite Hsame. apply render_same_deps.
Qed.

Lemma rerender_outside_deps_witness :
  let p := {| title := JS.String "Text"; isVisible := true; onClose := 5%nat;
              effect_deps := text_widget 0 |} in
  let q := {| title := JS.String "Text (renamed)"; isVisible := false;
              onClose := 6%nat; effect_deps := text_widget 0 |} in
  effect_deps q = effect_deps p ∧
  log (render_props q (render_props p init)) = log (render_props p init).
Proof.
  intros p q. split; [reflexivity |].
  now rewrite (rerender_outside_deps p q init eq_refl).
Defined.

Lemma none_pending_init : none_pending init.
Proof.
  repeat split. intros c Hc. cbn in Hc. now apply elem_of_nil in Hc.
Qed.

Lemma none_pending_effect d s :
  outgoingInstances s = ∅ → incomingInstances s = ∅ →
  (∀ c, c ∈ constructed_controls (log s) → c ∈ destroyed_controls (log s)) →
  none_pending (effect d s).
Proof.
  intros Hout Hinc Hall.
  destruct (effect_external d s) as (control & _ & _ & ->).
  { rewrite Hinc. apply not_elem_of_empty. }
  repeat split; cbn [outgoingInstances incomingInstances deps cleanup log];
    try assumption; try discriminate.
  intros c. rewrite constructed_snoc_new, destroyed_snoc_new, elem_of_app,
    list_elem_of_singleton.
  intros [Hc | ->]; [left; now apply Hall | right; eexists; split; reflexivity].
Qed.

Lemma none_pending_cleanup s :
  none_pending s →
  let s' := run_cleanup s in
  outgoingInstances s' = ∅ ∧ incomingInstances s' = ∅ ∧
  (∀ c, c ∈ constructed_controls (log s') → c ∈ destroyed_controls (log s')).
Proof.
  intros (Hout & Hinc & _ & Hall) s'. subst s'.
  destruct (cleanup s) as [f |] eqn:Hf; [| rewrite (run_cleanup_none s Hf)].
  - rewrite (run_cleanup_destroys (cl_instance f) (cl_control f) s).
    + cbn [outgoingInstances incomingInstances log].
      rewrite constructed_snoc_destroy, destroyed_snoc_destroy.
      repeat split; try assumption.
      intros c Hc. rewrite elem_of_app, list_elem_of_singleton.
      destruct (Hall c Hc) as [Hd | (f' & [= <-] & <-)]; [now left | now right].
    + rewrite Hf. now destruct f.
    + rewrite Hout. apply not_elem_of_empty.
  - repeat split; try assumption.
    intros c Hc. destruct (Hall c Hc) as [Hd | (f' & Hf' & _)];
      [exact Hd | discriminate Hf'].
Qed.

Lemma none_pending_step s a :
  not_own_change a = true → none_pending s → none_pending (step i18n s a).
Proof.
  intros Ha Hs. destruct a as [d | control nextInstance | error |];
    cbn [step]; [| discriminate Ha | |].
  - unfold render. destruct (deps s) as [d0 |] eqn:Hd.
    + destruct (decide (d = d0)) as [_ | _]; [exact Hs |].
      destruct (none_pending_cleanup s Hs) as (H1 & H2 & H3).
      now apply none_pending_effect.
    + destruct Hs as (Hout & Hinc & Hnone & Hall).
      apply none_pending_effect; try assumption.
      intros c Hc. destruct (Hall c Hc) as [Hdes | (f & Hf & _)]; [exact Hdes |].
      rewrite (Hnone Hd) in Hf. discriminate Hf.
  - destruct Hs as (Hout & Hinc & Hnone & Hall).
    repeat split; unfold control_onError;
      cbn [outgoingInstances incomingInstances deps cleanup log];
      try assumption.
    split_logs. exact Hall.
  - destruct (none_pending_cleanup s Hs) as (H1 & H2 & H3).
    repeat split; unfold unmount;
      cbn [outgoingInstances incomingInstances deps cleanup log];
      try assumption.
    intros c Hc. left. now apply H3.
Qed.

Lemma none_pending_run actions s :
  forallb not_own_change actions = true → none_pending s →
  none_pending (run i18n actions s).
Proof.
  revert s. induction actions as [| a rest IH]; intros s Hall Hs; [exact Hs |].
  cbn [forallb] in Hall. apply andb_prop in Hall as [Ha Hrest].
  cbn [run foldl]. apply IH; [exact Hrest |]. now apply none_pending_step.
Qed.

(** X14: as long as no control changes the instance itself, the form leaks
    nothing: after any renders, errors and unmounts, a final unmount leaves
    every control that was built destroyed. *)
Theorem no_own_change_no_leak actions :
  forallb not_own_change actions = true →
  let l := log (run i18n (actions ++ [Unmount]) init) in
  ∀ c, c ∈ constructed_controls l → c ∈ destroyed_controls l.
Proof.
  intros Hall l c Hc. subst l. unfold run in *. rewrite foldl_app in *.
  cbn [foldl step] in *.
  pose proof (none_pending_run actions init Hall none_pending_init) as Hs.
  destruct (none_pending_cleanup _ Hs) as (_ & _ & H3).
  unfold unmount in *. cbn [log] in *. now apply H3.
Qed.

Lemma notices_run_cleanup s : notices (log (run_cleanup s)) = notices (log s).
Proof.
  unfold run_cleanup, run_cleanup_fn. destruct (cleanup s) as [f |]; [| reflexivity].
  destruct (decide _); cbn [log]; [reflexivity |]. split_logs. reflexivity.
Qed.

Lemma notices_effect d s : notices (log (effect d s)) = notices (log s).
Proof.
  unfold effect. destruct (decide _); cbn [log]; [reflexivity |].
  split_logs. reflexivity.
Qed.

Lemma notices_step s a :
  notices (log (step i18n s a)) =
  notices (log s) ++
  match a with
  | ControlError error => [("error", notice_content i18n error)]
  | _ => []
  end.
Proof.
  destruct a as [d | control nextInstance | error |]; cbn [step];
    rewrite ?app_nil_r.
  - unfold render. destruct (deps s) as [d0 |].
    + destruct (decide (d = d0)); [reflexivity |].
      now rewrite notices_effect, notices_run_cleanup.
    + apply notices_effect.
  - unfold control_onChangeInstance. cbn [log]. split_logs. reflexivity.
  - unfold control_onError. cbn [log]. split_logs. reflexivity.
  - unfold unmount. cbn [log]. apply notices_run_cleanup.
Qed.

(** X16: the notices a form creates are, in order, one per error its controls
    report, each of status [error]; renders, changes and unmounts create
    none.  This holds from any state, and so from the first mount. *)
Theorem one_notice_per_error actions s :
  notices (log (run i18n actions s)) =
  notices (log s) ++
  ((λ error, ("error", notice_content i18n error)) <$> errors actions) ∧
  notices (log (run i18n actions init)) =
  (λ error, ("error", notice_content i18n error)) <$> errors actions.
Proof.
  assert (Hrun : ∀ s0, notices (log (run i18n actions s0)) =
                       notices (log s0) ++
                       ((λ error, ("error", notice_content i18n error))
                          <$> errors actions)).
  { induction actions as [| a rest IH]; intros s0.
    - cbn. now rewrite app_nil_r.
    - cbn [run foldl]. fold (run i18n rest (step i18n s0 a)).
      rewrite IH, notices_step, <- app_assoc. f_equal.
      destruct a; reflexivity. }
  split; [apply Hrun |]. now rewrite Hrun.
Qed.

Lemma add_then_delete_fresh (x : nat) (X : gset nat) :
  x ∉ X → ({[ x ]} ∪ X) ∖ {[ x ]} = X.
Proof.
  intros Hx. apply set_eq. intros y.
  rewrite elem_of_difference, elem_of_union, elem_of_singleton.
  split.
  - intros [[-> | Hy] Hne]; [contradiction | exact Hy].
  - intros Hy. split; [now right |]. intros ->. contradiction.
Qed.

(** X17: a change of the mounted control that comes back as props leaves nothing
    behind: both sets are as they were before the change. *)
Theorem reconciled_change_leaves_sets A control B d d0 s :
  mounted A control s → deps s = Some d0 → d ≠ d0 → instance d = B →
  A ∉ outgoingInstances s → B ∉ incomingInstances s →
  let s' := render d (control_onChangeInstance control B s) in
  outgoingInstances s' = outgoingInstances s ∧
  incomingInstances s' = incomingInstances s ∧
  cleanup s' = None.
Proof.
  intros (Hc & HA & _) Hd Hne HB Hout Hinc s'. subst s'.
  unfold render. cbn [control_onChangeInstance deps]. rewrite Hd.
  rewrite decide_False by assumption.
  set (s1 := control_onChangeInstance control B s).
  assert (Hc1 : cleanup s1 = Some {| cl_instance := A; cl_control := control |})
    by exact Hc.
  assert (Hin1 : A ∈ outgoingInstances s1).
  { subst s1. cbn [control_onChangeInstance outgoingInstances].
    rewrite HA. apply elem_of_union_l, elem_of_singleton_2. reflexivity. }
  rewrite (run_cleanup_outgoing A control s1 Hc1 Hin1).
  rewrite effect_incoming.
  - subst s1. cbn [outgoingInstances incomingInstances cleanup
                   control_onChangeInstance].
    rewrite HA, HB.
    rewrite (add_then_delete_fresh A _ Hout), (add_then_delete_fresh B _ Hinc).
    repeat split.
  - subst s1. cbn [incomingInstances control_onChangeInstance]. rewrite HB.
    apply elem_of_union_l, elem_of_singleton_2. reflexivity.
Qed.

Lemma reconciled_change_leaves_sets_witness :
  let s := render (text_widget 0) init in
  let control := first_control (text_widget 0) in
  let s' := render (text_widget 1) (control_onChangeInstance control 1 s) in
  mounted 0 control s ∧ deps s = Some (text_widget 0) ∧
  text_widget 1 ≠ text_widget 0 ∧ instance (text_widget 1) = 1%nat ∧
  (0%nat ∉ outgoingInstances s) ∧ (1%nat ∉ incomingInstances s) ∧
  outgoingInstances s' = outgoingInstances s ∧
  incomingInstances s' = incomingInstances s ∧
  cleanup s' = None.
Proof.
  intros s control s'.
  assert (Hm : mounted 0 control s).
  { split; [reflexivity |]. split; [reflexivity |]. eexists. reflexivity. }
  assert (Hd : deps s = Some (text_widget 0)) by reflexivity.
  assert (Hne : text_widget 1 ≠ text_widget 0) by discriminate.
  assert (HB : instance (text_widget 1) = 1%nat) by reflexivity.
  assert (Hout : 0%nat ∉ outgoingInstances s) by apply not_elem_of_empty.
  assert (Hinc : 1%nat ∉ incomingInstances s) by apply not_elem_of_empty.
  repeat (split; [assumption |]).
  exact (reconciled_change_leaves_sets 0%nat control 1%nat (text_widget 1)
           (text_widget 0) s Hm Hd Hne HB Hout Hinc).
Defined.

(** X18: an instance a control has reported but that never came back as props
    stays expected: when it later arrives from outside, the cleanup destroys
    the mounted control and the effect returns without building one, so the
    form is left without a control for those props. *)
Theorem stale_incoming_blocks_remount A control d d0 s :
  mounted A control s → deps s = Some d0 → d ≠ d0 →
  A ∉ outgoingInstances s → instance d ∈ incomingInstances s →
  log (render d s) = log s ++ [Destroy control] ∧
  cleanup (render d s) = None.
Proof.
  intros (Hc & _ & _) Hd Hne Hout Hinc. unfold render. rewrite Hd.
  rewrite decide_False by assumption.
  rewrite (run_cleanup_destroys A control s Hc Hout).
  rewrite effect_incoming by exact Hinc. split; reflexivity.
Qed.

End FormTraceProperties.

Section FormTraceExamples.

Import Form FormTrace.

Lemma destroy_only_built_once_witness :
  let first := first_control (text_widget 0) in
  let actions := [Render (text_widget 0); ControlChange first 1;
                  Render (text_widget 1); ControlError JS.Null;
                  Render (text_widget 2); Render (text_widget 3)] in
  let s := unmount (run (λ text, text) actions init) in
  forallb not_unmount actions = true ∧
  NoDup (destroyed_controls (log s)) ∧
  (∀ c, c ∈ destroyed_controls (log s) → c ∈ constructed_controls (log s)) ∧
  appended_controls (log s) = constructed_controls (log s).
Proof.
  intros first actions s. split; [reflexivity |].
  exact (destroy_only_built_once (λ text, text) actions s eq_refl
           (or_intror eq_refl)).
Defined.

Lemma no_own_change_no_leak_witness :
  let actions := [Render (text_widget 0); ControlError JS.Null;
                  Render (text_widget 1); Unmount; Render (text_widget 2)] in
  forallb not_own_change actions = true ∧
  ∀ c, c ∈ constructed_controls (log (run (λ text, text) (actions ++ [Unmount]) init)) →
       c ∈ destroyed_controls (log (run (λ text, text) (actions ++ [Unmount]) init)).
Proof.
  intros actions. split; [reflexivity |].
  exact (no_own_change_no_leak (λ text, text) actions eq_refl).
Defined.

Lemma stale_incoming_blocks_remount_witness :
  let first := first_control (text_widget 0) in
  let second :=
    {| ctl_key := 1; ctl_id := "text-2"; ctl_idBase := "text";
       ctl_instance := 3; ctl_onChangeInstance := 11;
       ctl_onChangeHasPreview := 12 |} in
  let s := run (λ text, text) [Render (text_widget 0); ControlChange first 1;
                     ControlChange first 2; Render (text_widget 2);
                     Render (text_widget 3)] init in
  mounted 3 second s ∧ deps s = Some (text_widget 3) ∧
  text_widget 1 ≠ text_widget 3 ∧
  (3%nat ∉ outgoingInstances s) ∧ (instance (text_widget 1) ∈ incomingInstances s) ∧
  log (render (text_widget 1) s) = log s ++ [Destroy second] ∧
  cleanup (render (text_widget 1) s) = None.
Proof.
  intros first second s.
  assert (Hm : mounted 3 second s).
  { split; [reflexivity |]. split; [reflexivity |]. eexists. reflexivity. }
  assert (Hd : deps s = Some (text_widget 3)) by reflexivity.
  assert (Hne : text_widget 1 ≠ text_widget 3) by discriminate.
  assert (Hout : 3%nat ∉ outgoingInstances s)
    by (apply (bool_decide_unpack _); vm_compute; exact I).
  assert (Hinc : instance (text_widget 1) ∈ incomingInstances s)
    by (apply (bool_decide_unpack _); vm_compute; exact I).
  repeat (split; [assumption |]).
  exact (stale_incoming_blocks_remount 3%nat second (text_widget 1)
           (text_widget 3) s Hm Hd Hne Hout Hinc).
Defined.

End FormTraceExamples.

(** * What the form renders *)

Section FormViewProperties.

Import Form FormTrace FormView.

Variable i18n : string → string.

Implicit Types (p : Props) (h : Hooks).

(** The attribute written after the spread of [dialogProps] wins over it. *)
Lemma wide_form_hidden h (isVisible : bool) base :
  (<["hidden" := PBool (negb isVisible)]> (dialogProps h ∪ base)) !! "hidden"
  = Some (PBool (negb isVisible)).
Proof. apply lookup_insert_eq. Qed.

(** An attribute written before the spread is the one of [dialogProps] when
    it has one. *)
Lemma wide_form_ref h (isVisible : bool) r cls :
  (<["hidden" := PBool (negb isVisible)]>
     (dialogProps h ∪ <["ref" := r]> {[ "className" := cls ]})) !! "ref"
  = Some (default r (dialogProps h !! "ref")).
Proof.
  rewrite lookup_insert_ne by discriminate.
  rewrite lookup_union, lookup_insert_eq.
  destruct (dialogProps h !! "ref"); reflexivity.
Qed.

(** X19: the close button is rendered in the wide layout and only there; its
    [onClick] is the [onClose] prop. *)
Theorem close_button_iff_wide p h :
  elements_of_type "Button" (Form i18n p h) =
  if isWide (effect_deps p) then
    [ <["onClick" := PFunction (onClose p)]>
        (<["label" := PString (i18n "Close dialog")]>
           {[ "icon" := PIcon "closeSmall" ]}) ]
  else [].
Proof.
  unfold Form, WideFormDialog, formCore.
  destruct (isWide (effect_deps p)); reflexivity.
Qed.

(** X20: in both layouts exactly one element carries [hidden], with the value
    [! isVisible], whatever [useDialog] puts into [dialogProps]. *)
Theorem hidden_follows_isVisible p h :
  attribute_values "hidden" (Form i18n p h) = [PBool (negb (isVisible p))].
Proof.
  unfold Form, WideFormDialog, formCore, attribute_values.
  destruct (isWide (effect_deps p)).
  - cbn [elements map concat app omap list_omap snd].
    rewrite wide_form_hidden. reflexivity.
  - reflexivity.
Qed.

(** X21: the container the effect appends controls to is rendered in both
    layouts, once; in the wide layout the merged ref of the dialog is
    attached unless [dialogProps] brings a [ref] of its own. *)
Theorem body_ref_attached p h :
  attribute_values "ref" (Form i18n p h) =
  if isWide (effect_deps p) then
    [ PRef ContainerRef;
      default (PRef (MergedRefs [HookRef (dialogRef h); HookRef (budgeRef h)]))
              (dialogProps h !! "ref");
      PRef BodyRef ]
  else [ PRef BodyRef ].
Proof.
  unfold Form, WideFormDialog, formCore, attribute_values.
  destruct (isWide (effect_deps p)).
  - cbn [elements map concat app omap list_omap snd].
    rewrite wide_form_ref. reflexivity.
  - reflexivity.
Qed.

End FormViewProperties.
